(** * Report orchestration: search layer, configuration resolver,
      section research loop, fan-out and compiler

    A shallow embedding of [tools1.py], [configuration.py] and
    [multi_agent.py].  Python dictionaries whose iteration order is
    irrelevant are [gmap]s; the one dictionary that is enumerated
    ([unique_results_by_url]) is an insertion-ordered association list.
    Code that can raise returns a [result].  Calls to the language model
    and to the search provider are fields of a type class, so that every
    statement holds for all replies.

    Text is modelled as [string] over ASCII characters. *)

From Stdlib Require Import Ascii Decimal DecimalString ZArith Lia.
From stdpp Require Import gmap strings list fin_maps.

Local Open Scope Z_scope.

(** ** Python values and built-ins used by the sources *)
Module Py.

(** Exceptions, by class; [str(e)] is the carried message. *)
Inductive exn : Type :=
| KeyError (key : string)
| TypeError (msg : string)
| ValueError (msg : string)
| Exception (msg : string).

Definition str_of_exn (e : exn) : string :=
  match e with
  | KeyError k => "'" +:+ k +:+ "'"
  | TypeError m | ValueError m | Exception m => m
  end.

Inductive result (A : Type) : Type :=
| Ok (a : A)
| Raise (e : exn).
Arguments Ok {A} a.
Arguments Raise {A} e.

Global Instance result_ret : MRet result := fun _ a => Ok a.
Global Instance result_bind : MBind result := fun _ _ k m =>
  match m with
  | Ok a => k a
  | Raise e => Raise e
  end.

Definition is_ok {A} (r : result A) : bool :=
  match r with Ok _ => true | Raise _ => false end.

(** The line feed of the f-strings. *)
Definition nl : string := String "010"%char "".

(** [s * n] *)
Fixpoint str_mul (s : string) (n : nat) : string :=
  match n with
  | O => ""
  | S n' => s +:+ str_mul s n'
  end.

(** [str(n)] for a non-negative [int] *)
Definition str_of_nat (n : nat) : string :=
  NilZero.string_of_uint (Nat.to_uint n).

(** [str(b)] *)
Definition str_of_bool (b : bool) : string :=
  if b then "True" else "False".

(** [sep.join(parts)] *)
Fixpoint join (sep : string) (parts : list string) : string :=
  match parts with
  | [] => ""
  | [x] => x
  | x :: rest => x +:+ sep +:+ join sep rest
  end.

(** Truth value of an optional string: [None] and [""] are falsy. *)
Definition truthy (o : option string) : bool :=
  match o with
  | Some (String _ _) => true
  | _ => false
  end.

(** [not l] for a list or dictionary *)
Definition is_empty {A} (l : list A) : bool :=
  match l with [] => true | _ :: _ => false end.

(** [c.isspace()] on ASCII *)
Definition isspace (c : ascii) : bool :=
  let n := nat_of_ascii c in
  ((9 <=? n)%nat && (n <=? 13)%nat) || ((28 <=? n)%nat && (n <=? 32)%nat).

Fixpoint lstrip (s : string) : string :=
  match s with
  | String c s' => if isspace c then lstrip s' else s
  | EmptyString => ""
  end.

Fixpoint rstrip (s : string) : string :=
  match s with
  | EmptyString => ""
  | String c s' =>
      match rstrip s' with
      | EmptyString => if isspace c then "" else String c ""
      | r => String c r
      end
  end.

(** [s.strip()] *)
Definition strip (s : string) : string := rstrip (lstrip s).

(** [c.upper()] on ASCII *)
Definition upper_char (c : ascii) : ascii :=
  let n := nat_of_ascii c in
  if ((97 <=? n)%nat && (n <=? 122)%nat) then ascii_of_nat (n - 32) else c.

(** [s.upper()] *)
Fixpoint upper (s : string) : string :=
  match s with
  | EmptyString => ""
  | String c s' => String (upper_char c) (upper s')
  end.

(** A dictionary entry read with [d.get(k, default)] and then printed:
    the key may be missing, hold [None], or hold a string. *)
Inductive field : Type :=
| Absent
| IsNone
| Str (s : string).

(** [f"{d.get(k, dflt)}"] *)
Definition get_str (f : field) (dflt : string) : string :=
  match f with
  | Absent => dflt
  | IsNone => "None"
  | Str s => s
  end.

End Py.
Import Py.

(** ** state.py *)
Module State.

(** Modelled from the spec: the class [Section] of [state.py], which is
    not among the sources.  The four attributes are the ones the
    sources read and write ([s.name], [s.description], [s.research],
    [s.content]); the spec calls the flag [requires_research] and gives
    [content] as an optional string. *)
Record Section_ : Type := mkSection {
  name : string;
  description : string;
  research : bool;
  content : option string
}.

Global Instance Section_eq_dec : EqDecision Section_.
Proof. solve_decision. Defined.

(** [section.content = c] *)
Definition set_content (s : Section_) (c : string) : Section_ :=
  {| name := name s; description := description s;
     research := research s; content := Some c |}.

(** Modelled from the spec: [SearchQuery] of [state.py]; the sources
    read [search_query] only. *)
Record SearchQuery : Type := mkSearchQuery { search_query : string }.

(** Modelled from the spec: the verdict of the grader,
    [Literal["pass", "fail"]]. *)
Inductive Grade : Type := pass | fail.

Global Instance Grade_eq_dec : EqDecision Grade.
Proof. solve_decision. Defined.

(** Modelled from the spec: [Feedback] of [state.py]. *)
Record Feedback : Type := mkFeedback {
  grade : Grade;
  follow_up_queries : list SearchQuery
}.

(** Modelled from the spec: the dictionary [ReportState] of [state.py].
    A key that may be missing when a node reads it is an option. *)
Record ReportState : Type := mkReportState {
  topic : option string;
  sections : option (list Section_);
  completed_sections : option (list Section_);
  report_sections_from_research : option string
}.

(** Modelled from the spec: the dictionary [SectionState] of
    [state.py], the working state of one research loop.  The keys
    [search_queries] and [source_str] are written by the node that
    precedes their first reader; before that they hold empty values. *)
Record SectionState : Type := mkSectionState {
  s_topic : string;
  s_section : Section_;
  search_iterations : Z;
  search_queries : list SearchQuery;
  source_str : string
}.

End State.
Import State.

(** ** configuration.py *)
Module Configuration.

Inductive SearchAPI : Type := TAVILY.

Global Instance SearchAPI_eq_dec : EqDecision SearchAPI.
Proof. solve_decision. Defined.

(** The values a configuration entry can hold. *)
Inductive value : Type :=
| VStr (s : string)
| VInt (z : Z)
| VNone
| VDict (d : list (string * string))
| VSearchAPI (a : SearchAPI).

Global Instance value_eq_dec : EqDecision value.
Proof. solve_decision. Defined.

Definition DEFAULT_REPORT_STRUCTURE : string :=
  "Use this structure to create a report on the user-provided topic:" +:+ nl +:+
  nl +:+
  "1. Introduction (no research needed)" +:+ nl +:+
  "   - Brief overview of the topic area" +:+ nl +:+
  nl +:+
  "2. Main Body Sections:" +:+ nl +:+
  "   - Each section should focus on a sub-topic of the user-provided topic" +:+ nl +:+
  "   " +:+ nl +:+
  "3. Conclusion" +:+ nl +:+
  "   - Aim for 1 structural element (either a list of table) that distills the main body sections " +:+ nl +:+
  "   - Provide a concise summary of the report".

(** The declared fields of the model, in declaration order, each with
    its default. *)
Definition field_defaults : list (string * value) :=
  [ ("report_structure", VStr DEFAULT_REPORT_STRUCTURE);
    ("number_of_queries", VInt 2);
    ("max_search_depth", VInt 2);
    ("planner_provider", VStr "openai");
    ("planner_model", VStr "gpt-4.1");
    ("planner_model_kwargs", VNone);
    ("writer_provider", VStr "openai");
    ("writer_model", VStr "gpt-4.1");
    ("writer_model_kwargs", VNone);
    ("search_api", VSearchAPI TAVILY);
    ("search_api_config", VNone);
    ("supervisor_model", VStr "openai:gpt-4.1");
    ("researcher_model", VStr "openai:gpt-4.1") ].

(** [cls.model_fields.keys()] *)
Definition model_fields : list string := field_defaults.*1.


(** A [RunnableConfig]: a dictionary that may hold the key
    ["configurable"].  The environment [os.environ] is a
    [gmap string string]. *)
Record RunnableConfig : Type := mkRunnableConfig {
  configurable : option (gmap string value)
}.

(** [config["configurable"] if config and "configurable" in config else {}] *)
Definition configurable_of (config : option RunnableConfig) : gmap string value :=
  match config with
  | Some c => default ∅ (configurable c)
  | None => ∅
  end.

(** The body of the second loop of [from_runnable_config], for one
    field: the environment first, then the configurable mapping (a key
    that is present counts, whatever it holds), else no entry. *)
Definition resolve_field (env : gmap string string) (cfg : gmap string value)
    (final_values : gmap string value) (field_name : string) : gmap string value :=
  match env !! upper field_name with
  | Some env_var_value => <[field_name := VStr env_var_value]> final_values
  | None =>
      match cfg !! field_name with
      | Some v => <[field_name := v]> final_values
      | None => final_values
      end
  end.

(** [final_values_for_instantiation] at the end of the loop. *)
Definition final_values_for_instantiation (env : gmap string string)
    (config : option RunnableConfig) : gmap string value :=
  foldl (resolve_field env (configurable_of config)) ∅ model_fields.

(** The part of Pydantic the class relies on: parsing and type
    conversion of a value passed for a field.  A default is taken as
    declared. *)
Class Pydantic : Type := { validate : string -> value -> result value }.

(** One field of the instantiation from keyword arguments. *)
Definition init_field `{Pydantic} (kwargs : gmap string value)
    (fd : string * value) : result (string * value) :=
  match kwargs !! fd.1 with
  | Some v => v' ← validate fd.1 v; Ok (fd.1, v')
  | None => Ok fd
  end.

Fixpoint init_fields `{Pydantic} (kwargs : gmap string value)
    (fds : list (string * value)) : result (list (string * value)) :=
  match fds with
  | [] => Ok []
  | fd :: rest =>
      x ← init_field kwargs fd;
      xs ← init_fields kwargs rest;
      Ok (x :: xs)
  end.

(** The instantiation [cls] from keyword arguments: an instance, as the
    list of its fields. *)
Definition cls `{Pydantic} (kwargs : gmap string value) : result (list (string * value)) :=
  init_fields kwargs field_defaults.

Definition from_runnable_config `{Pydantic} (env : gmap string string)
    (config : option RunnableConfig) : result (list (string * value)) :=
  cls (final_values_for_instantiation env config).


End Configuration.

(** ** tools1.py *)
Module Tools1.

(** One block of [format_sections]: the f-string of the loop body. *)
Definition section_block (idx : nat) (section : Section_) : string :=
  nl +:+ str_mul "=" 60 +:+ nl +:+
  "Section " +:+ str_of_nat idx +:+ ": " +:+ name section +:+ nl +:+
  str_mul "=" 60 +:+ nl +:+
  "Description:" +:+ nl +:+
  description section +:+ nl +:+
  "Requires Research: " +:+ nl +:+
  str_of_bool (research section) +:+ nl +:+
  nl +:+
  "Content:" +:+ nl +:+
  (if truthy (content section) then default "" (content section)
   else "[Not yet written]") +:+ nl +:+
  nl.

(** The loop of [format_sections]: [idx] counts from the given start,
    [formatted_str] grows at its end. *)
Fixpoint format_sections_loop (idx : nat) (formatted_str : string)
    (sections : list Section_) : string :=
  match sections with
  | [] => formatted_str
  | section :: rest =>
      format_sections_loop (S idx) (formatted_str +:+ section_block idx section) rest
  end.

Definition format_sections (sections : list Section_) : string :=
  format_sections_loop 1 "" sections.

(** One entry of a response's ['results']. *)
Record Result : Type := mkResult {
  title : field;
  url : option string;
  summary : field;          (* the key 'content' *)
  raw_content : option string
}.

(** One response of the provider, or the error object built for a
    query. *)
Record Response : Type := mkResponse {
  query : string;
  error : option string;
  results : list Result;
  follow_up_questions : option (list string);
  answer : option string;
  images : option (list string)
}.

(** A search call that was started: when it finished, and with what. *)
Record Task : Type := mkTask {
  finished_at : nat;
  outcome : result Response
}.

(** The provider: the call issued for the query at a position of the
    batch.  Every other argument of the call is fixed within a batch. *)
Class TavilyClient : Type := { client_search : nat -> string -> Task }.

(** The exception [asyncio.gather] propagates: the one raised first
    (the earlier position on a tie). *)
Definition first_raised_step (best : option (nat * exn)) (t : Task)
    : option (nat * exn) :=
  match outcome t with
  | Ok _ => best
  | Raise e =>
      match best with
      | None => Some (finished_at t, e)
      | Some (tm, _) =>
          if (finished_at t <? tm)%nat then Some (finished_at t, e) else best
      end
  end.

Definition first_raised (tasks : list Task) : option (nat * exn) :=
  foldl first_raised_step None tasks.

Definition returned (t : Task) : option Response :=
  match outcome t with
  | Ok r => Some r
  | Raise _ => None
  end.

(** [await asyncio.gather] over the tasks, without [return_exceptions]. *)
Definition gather (tasks : list Task) : result (list Response) :=
  match first_raised tasks with
  | Some (_, e) => Raise e
  | None => Ok (omap returned tasks)
  end.

(** The error object of the [except] branch. *)
Definition error_object (e : exn) (q : string) : Response :=
  {| query := q; error := Some (str_of_exn e); results := [];
     follow_up_questions := None; answer := None; images := None |}.

Definition tavily_search_async `{TavilyClient} (search_queries : list string)
    : list Response :=
  let search_tasks := imap client_search search_queries in
  match gather search_tasks with
  | Ok search_docs => search_docs
  | Raise e => map (error_object e) search_queries
  end.

(** [if url and url not in unique_results_by_url: ...] *)
Definition add_result (unique_results_by_url : list (string * Result))
    (result : Result) : list (string * Result) :=
  match url result with
  | Some u =>
      if truthy (Some u) && negb (bool_decide (u ∈ unique_results_by_url.*1))
      then unique_results_by_url ++ [(u, result)]
      else unique_results_by_url
  | None => unique_results_by_url
  end.

(** The body of the loop over the responses, on the pair of
    [formatted_output] and [unique_results_by_url]. *)
Definition scan_response (acc : string * list (string * Result))
    (response : Response) : string * list (string * Result) :=
  if truthy (error response) then
    (acc.1 +:+ "Error for query '" +:+ query response +:+ "': " +:+
       default "" (error response) +:+ nl +:+ nl,
     acc.2)
  else
    ((if truthy (answer response) then
        acc.1 +:+ "Direct Answer for query '" +:+ query response +:+ "': " +:+
          default "" (answer response) +:+ nl +:+ nl
      else acc.1),
     foldl add_result acc.2 (results response)).

(** [any(res.get("answer") for res in search_responses if not res.get("error"))] *)
Definition any_answer (search_responses : list Response) : bool :=
  existsb (fun res => truthy (answer res))
          (filter (fun res => truthy (error res) = false) search_responses).

Definition raw_content_preview (raw : string) : string :=
  String.substring 0 10000 raw +:+
  (if (10000 <? String.length raw)%nat then "..." else "").

(** The text appended for one source. *)
Definition source_block (i : nat) (entry : string * Result) : string :=
  nl +:+ nl +:+ "--- SOURCE " +:+ str_of_nat i +:+ ": " +:+
    get_str (title entry.2) "N/A" +:+ " ---" +:+ nl +:+
  "URL: " +:+ entry.1 +:+ nl +:+ nl +:+
  "SUMMARY:" +:+ nl +:+ get_str (summary entry.2) "N/A" +:+ nl +:+ nl +:+
  (if truthy (raw_content entry.2) then
     "FULL CONTENT (preview):" +:+ nl +:+
       raw_content_preview (default "" (raw_content entry.2))
   else "") +:+
  nl +:+ nl +:+ str_mul "-" 80 +:+ nl.

Fixpoint format_sources (i : nat) (formatted_output : string)
    (entries : list (string * Result)) : string :=
  match entries with
  | [] => formatted_output
  | entry :: rest =>
      format_sources (S i) (formatted_output +:+ source_block i entry) rest
  end.

(** The state of the first loop of [tavily_search] at its end. *)
Definition scan_responses (search_responses : list Response)
    : string * list (string * Result) :=
  foldl scan_response ("Search results:" +:+ nl +:+ nl, []) search_responses.

(** [unique_results_by_url.items()] after the first loop. *)
Definition unique_results_by_url (search_responses : list Response)
    : list (string * Result) :=
  (scan_responses search_responses).2.

(** The body of [tavily_search] after the call of [tavily_search_async]. *)
Definition format_search_responses (search_responses : list Response) : string :=
  let '(formatted_output, unique) := scan_responses search_responses in
  if is_empty unique && negb (any_answer search_responses) then
    "No valid search results or answers found. Please try different search queries."
  else strip (format_sources 1 formatted_output unique).

Definition tavily_search `{TavilyClient} (queries : list string) : string :=
  format_search_responses (tavily_search_async queries).

(** The choice of the search API by its name.  The parameters handed
    on to the tool, and what the tool raises for them, are left to the
    provider and are not part of the result below. *)
Definition select_and_execute_search `{TavilyClient} (search_api : string)
    (query_list : list string) : result string :=
  if bool_decide (search_api = "tavily") then Ok (tavily_search query_list)
  else Raise (ValueError ("Unsupported search API: " +:+ search_api +:+
                          ". Only 'tavily' is currently supported.")).

End Tools1.

(** ** multi_agent.py *)
Module MultiAgent.
Import Tools1.

(** The attributes of the resolved [Configuration] the nodes below
    read, [search_api] as the string of the enumeration member.  Each
    node resolves the configuration when it is entered; a failure of
    that resolution is outside this record. *)
Record Configurable : Type := mkConfigurable {
  number_of_queries : Z;
  max_search_depth : Z;
  search_api : string
}.

(** The collaborators of a research loop.  Each reply may depend on the
    whole state the node was entered with, hence on the round. *)
Class Gateways : Type := {
  query_writing_llm : SectionState -> result (list SearchQuery);
  section_writing_llm : SectionState -> result string;
  structured_reflection_llm : SectionState -> result Feedback;
  tavily : SectionState -> TavilyClient
}.

(** [state[key]] on a key that may be missing. *)
Definition getitem {A} (key : string) (o : option A) : result A :=
  match o with
  | Some a => Ok a
  | None => Raise (KeyError key)
  end.

(** *** The approval node and the fan-out *)

Record Send : Type := mkSend {
  send_node : string;
  send_arg : SectionState
}.

Inductive Goto : Type :=
| GotoSends (tasks : list Send)
| GotoNode (node : string).

Record Command : Type := mkCommand {
  goto : Goto;
  update_feedback_on_report_plan : option (list string)
}.

(** What [feedback_input] can hold: a Boolean, a string, or a value of
    another type, given by the name of its type. *)
Inductive FeedbackInput : Type :=
| FBool (b : bool)
| FStr (s : string)
| FOther (type_name : string).

(** [f"{type(v)}"] *)
Definition str_of_type (v : FeedbackInput) : string :=
  "<class '" +:+
  match v with
  | FBool _ => "bool"
  | FStr _ => "str"
  | FOther type_name => type_name
  end +:+ "'>".

Definition unsupported (v : FeedbackInput) : exn :=
  TypeError ("Interrupt value of type " +:+ str_of_type v +:+
             " or empty feedback is not supported. " +:+
             "This node is set to auto-approve.").

(** [feedback_input = True] *)
Definition feedback_input : FeedbackInput := FBool true.

Definition research_task (topic : string) (s : Section_) : Send :=
  {| send_node := "build_section_with_web_research";
     send_arg := {| s_topic := topic; s_section := s; search_iterations := 0;
                    search_queries := []; source_str := "" |} |}.

Definition human_feedback_node (state : ReportState) : result Command :=
  topic ← getitem "topic" (topic state);
  sections ← getitem "sections" (sections state);
  match feedback_input with
  | FBool true =>
      let research_tasks :=
        map (research_task topic) (filter (fun s => research s = true) sections) in
      if is_empty research_tasks
      then Ok {| goto := GotoNode "gather_completed_sections";
                 update_feedback_on_report_plan := None |}
      else Ok {| goto := GotoSends research_tasks;
                 update_feedback_on_report_plan := None |}
  | FStr s =>
      if is_empty (String.list_ascii_of_string (strip s))
      then Raise (unsupported feedback_input)
      else Ok {| goto := GotoNode "generate_report_plan";
                 update_feedback_on_report_plan := Some [s] |}
  | _ => Raise (unsupported feedback_input)
  end.

(** *** The nodes of the section graph *)

Definition with_queries (st : SectionState) (qs : list SearchQuery) : SectionState :=
  {| s_topic := s_topic st; s_section := s_section st;
     search_iterations := search_iterations st;
     search_queries := qs; source_str := source_str st |}.

Definition with_section (st : SectionState) (sec : Section_) : SectionState :=
  {| s_topic := s_topic st; s_section := sec;
     search_iterations := search_iterations st;
     search_queries := search_queries st; source_str := source_str st |}.

(** Returns the update [{"search_queries": ...}], applied to the state. *)
Definition generate_queries_node `{Gateways} (cfg : Configurable)
    (state : SectionState) : result SectionState :=
  queries ← query_writing_llm state;
  Ok (with_queries state queries).

(** Returns the update of [source_str] and [search_iterations], applied
    to the state. *)
Definition search_web_node `{Gateways} (cfg : Configurable)
    (state : SectionState) : result SectionState :=
  let query_list_str := map search_query (search_queries state) in
  source ← @select_and_execute_search (tavily state) (search_api cfg) query_list_str;
  Ok {| s_topic := s_topic state; s_section := s_section state;
        search_iterations := search_iterations state + 1;
        search_queries := search_queries state; source_str := source |}.

(** The two commands [write_section_node] can return. *)
Inductive SectionCommand : Type :=
| GotoEND (completed_sections : list Section_)
| GotoSearchWeb (search_queries : list SearchQuery) (section : Section_).

(** Returns the grade the node prints and its command. *)
Definition write_section_node `{Gateways} (cfg : Configurable)
    (state : SectionState) : result (Grade * SectionCommand) :=
  section_content ← section_writing_llm state;
  let section := set_content (s_section state) section_content in
  feedback_result ← structured_reflection_llm (with_section state section);
  if bool_decide (grade feedback_result = pass)
     || (max_search_depth cfg <=? search_iterations state)
  then Ok (grade feedback_result, GotoEND [section])
  else Ok (grade feedback_result,
           GotoSearchWeb (follow_up_queries feedback_result) section).

(** *** The section graph *)

Inductive Node : Type := generate_queries | search_web | write_section | END.

Global Instance Node_eq_dec : EqDecision Node.
Proof. solve_decision. Defined.

(** What a run leaves behind: one event per search round and per
    write-and-grade round. *)
Inductive Event : Type :=
| Searched
| Graded (g : Grade).

Global Instance Event_eq_dec : EqDecision Event.
Proof. solve_decision. Defined.

Record Machine : Type := mkMachine {
  at_node : Node;
  st : SectionState;
  log : list Event;
  emitted : list Section_      (* the update of [completed_sections] *)
}.

(** The machine a [Send] of the fan-out starts. *)
Definition start (task : Send) : Machine :=
  {| at_node := generate_queries; st := send_arg task; log := []; emitted := [] |}.

(** One node of the graph, followed along its outgoing edge:
    [START -> generate_queries -> search_web -> write_section], and from
    [write_section] where its command says. *)
Definition step `{Gateways} (cfg : Configurable) (m : Machine) : result Machine :=
  match at_node m with
  | generate_queries =>
      st' ← generate_queries_node cfg (st m);
      Ok {| at_node := search_web; st := st'; log := log m; emitted := emitted m |}
  | search_web =>
      st' ← search_web_node cfg (st m);
      Ok {| at_node := write_section; st := st';
            log := log m ++ [Searched]; emitted := emitted m |}
  | write_section =>
      r ← write_section_node cfg (st m);
      match r.2 with
      | GotoEND done =>
          Ok {| at_node := END; st := st m;
                log := log m ++ [Graded r.1]; emitted := emitted m ++ done |}
      | GotoSearchWeb qs sec =>
          Ok {| at_node := search_web; st := with_section (with_queries (st m) qs) sec;
                log := log m ++ [Graded r.1]; emitted := emitted m |}
      end
  | END => Ok m
  end.

(** Runs the graph for at most [fuel] nodes.  [None]: out of fuel;
    [Some (m, None)]: reached [END] in [m]; [Some (m, Some e)]: the
    node entered in [m] raised [e]. *)
Fixpoint run `{Gateways} (fuel : nat) (cfg : Configurable) (m : Machine)
    : option (Machine * option exn) :=
  match at_node m with
  | END => Some (m, None)
  | _ =>
      match fuel with
      | O => None
      | S fuel' =>
          match step cfg m with
          | Raise e => Some (m, Some e)
          | Ok m' => run fuel' cfg m'
          end
      end
  end.

(** *** Gather and compile *)


(** [{s.name: s.content for s in completed}]: a later entry of a name
    replaces an earlier one. *)
Definition completed_content_map (completed : list Section_)
    : gmap string (option string) :=
  foldl (fun m s => <[name s := content s]> m) ∅ completed.

Definition not_found_text (section_name : string) : string :=
  "[Content for section '" +:+ section_name +:+ "' not found/completed]".

Definition is_none_text (section_name : string) : string :=
  "[Content for section '" +:+ section_name +:+ "' is None]".

(** [content_str] of the loop body. *)
Definition content_str (m : gmap string (option string))
    (planned_section : Section_) : string :=
  let content := default (Some (not_found_text (name planned_section)))
                         (m !! name planned_section) in
  match content with
  | Some c => c
  | None => is_none_text (name planned_section)
  end.

Definition header (planned_section : Section_) : string :=
  "## " +:+ name planned_section +:+ nl +:+ nl.

(** [final_report_parts] at the end of the loop. *)
Definition final_report_parts (planned_sections completed : list Section_)
    : list string :=
  let m := completed_content_map completed in
  foldl (fun parts planned_section =>
           parts ++ [header planned_section +:+ content_str m planned_section])
        [] planned_sections.

(** Returns the update of [final_report]. *)
Definition compile_final_report_node (state : ReportState) : result string :=
  planned_sections ← getitem "sections" (sections state);
  let completed := default [] (completed_sections state) in
  Ok (join (nl +:+ nl) (final_report_parts planned_sections completed)).

End MultiAgent.

Import Configuration Tools1 MultiAgent.

(** ** A run used as an example

    The plan has three sections, A and B to be researched and C not. *)
Module Scenario.

Definition A : Section_ := mkSection "A" "first topic" true None.
Definition B : Section_ := mkSection "B" "second topic" true None.
Definition C : Section_ := mkSection "C" "summary" false None.
Definition planned : list Section_ := [A; B; C].

Definition A_done : Section_ := set_content A "text of A".
Definition B_done : Section_ := set_content B "text of B".
Definition C_done : Section_ := set_content C "text of C".

(** After planning. *)
Definition approved : ReportState :=
  mkReportState (Some "X") (Some planned) None None.


(** All three sections completed, out of planned order. *)
Definition all_done : ReportState :=
  mkReportState (Some "X") (Some planned) (Some [B_done; C_done; A_done]) None.

(** B never completed. *)
Definition B_missing : ReportState :=
  mkReportState (Some "X") (Some planned) (Some [C_done; A_done]) None.

(** B completed without content. *)
Definition B_empty : ReportState :=
  mkReportState (Some "X") (Some planned) (Some [A_done; B; C_done]) None.

Definition page (u : string) : Result :=
  {| title := Str "Page"; url := Some u; summary := Str "text";
     raw_content := None |}.

Definition reply (q : string) (hits : list Result) : Response :=
  {| query := q; error := None; results := hits;
     follow_up_questions := None; answer := None; images := None |}.

(** Two replies that share a URL. *)
Definition overlapping : list Response :=
  [ reply "alpha" [page "http://a.example"; page "http://b.example"];
    reply "beta" [page "http://b.example"; page "http://c.example"] ].

(** A provider whose second call raises. *)
Definition flaky : TavilyClient :=
  {| client_search := fun i q =>
       if (i =? 0)%nat then mkTask 1 (Ok (reply q [page "http://a.example"]))
       else mkTask 2 (Raise (Exception "timed out")) |}.

(** A provider that always answers. *)
Definition steady : TavilyClient :=
  {| client_search := fun i q => mkTask i (Ok (reply q [page "http://a.example"])) |}.

(** Collaborators whose grader never passes a section. *)
Definition strict : Gateways :=
  {| query_writing_llm := fun _ => Ok [mkSearchQuery "first query"];
     section_writing_llm := fun _ => Ok "draft";
     structured_reflection_llm := fun _ =>
       Ok (mkFeedback fail [mkSearchQuery "follow-up"]);
     tavily := fun _ => steady |}.

(** Collaborators whose grader passes every section. *)
Definition lenient : Gateways :=
  {| query_writing_llm := fun _ => Ok [mkSearchQuery "first query"];
     section_writing_llm := fun _ => Ok "draft";
     structured_reflection_llm := fun _ => Ok (mkFeedback pass []);
     tavily := fun _ => steady |}.

Definition depth (n : Z) : Configurable :=
  {| number_of_queries := 2; max_search_depth := n; search_api := "tavily" |}.

(** A loop for A that has searched once and is about to write. *)
Definition first_write : Machine :=
  {| at_node := write_section;
     st := {| s_topic := "X"; s_section := A; search_iterations := 1;
              search_queries := [mkSearchQuery "first query"];
              source_str := "Search results:" |};
     log := [Searched]; emitted := [] |}.

(** A validation that accepts every value as it is. *)
Definition accept_all : Pydantic := {| validate := fun _ v => Ok v |}.

Definition environment : gmap string string :=
  {[ "MAX_SEARCH_DEPTH" := "3" ]}.

Definition runnable_config : option RunnableConfig :=
  Some {| configurable :=
            Some {[ "max_search_depth" := VInt 5;
                    "number_of_queries" := VInt 4 ]} |}.


End Scenario.

(** ** Notions used to state the properties *)

(** What follows the header of a section whose completed entry holds
    [c]. *)
Definition rendered (section_name : string) (c : option string) : string :=
  match c with
  | Some text => text
  | None => is_none_text section_name
  end.

(** What the resolver's loop leaves for a field it has visited. *)
Definition layered (env : gmap string string) (cfg : gmap string value)
    (f : string) (otherwise : option value) : option value :=
  match env !! upper f with
  | Some v => Some (VStr v)
  | None =>
      match cfg !! f with
      | Some v => Some v
      | None => otherwise
      end
  end.

(** A response that carries an error contributes no source. *)
Definition usable (response : Response) : Prop :=
  truthy (error response) = false.

(** Search rounds and write-and-grade rounds a log records. *)
Definition searches (l : list Event) : nat :=
  length (filter (fun e => e = Searched) l).

Definition gradings (l : list Event) : nat :=
  length (filter (fun e => e ≠ Searched) l).

(** What holds of a machine started by the fan-out, node by node. *)
Definition reachable (cfg : Configurable) (m : Machine) : Prop :=
  let n := search_iterations (st m) in
  let depth := max_search_depth cfg in
  Z.of_nat (searches (log m)) = n
  ∧ match at_node m with
    | generate_queries => n = 0 ∧ log m = []
    | search_web => 0 <= n < depth ∧ Z.of_nat (gradings (log m)) = n
    | write_section => 1 <= n <= depth ∧ Z.of_nat (gradings (log m)) = n - 1
    | END =>
        1 <= n <= depth ∧ Z.of_nat (gradings (log m)) = n
        ∧ ∃ g l, log m = l ++ [Graded g] ∧ (g = fail -> n = depth)
    end.

(** Nodes still to run, at most. *)
Definition remaining (cfg : Configurable) (m : Machine) : nat :=
  let left := Z.to_nat (max_search_depth cfg - search_iterations (st m)) in
  match at_node m with
  | generate_queries => 1 + 2 * Z.to_nat (max_search_depth cfg)
  | search_web => 2 * left
  | write_section => 1 + 2 * left
  | END => 0
  end%nat.

(** ** tools1.py: the configuration helpers *)
Module SearchParams.

(** [isinstance(value, str)], [isinstance(value, dict)],
    [hasattr(value, 'value')], else the value itself. *)
Definition get_config_value (v : value) : value :=
  match v with
  | VStr s => VStr s
  | VDict d => VDict d
  | VSearchAPI TAVILY => VStr "tavily"
  | other => other
  end.

Definition SEARCH_API_PARAMS : gmap string (list string) :=
  {[ "tavily" := [ "max_results"; "topic"; "include_raw_content"; "search_depth";
                   "include_answer"; "include_images"; "include_domains";
                   "exclude_domains" ] ]}.

(** [search_api_config] is [None], or a dictionary; an empty dictionary
    is falsy like [None]. *)
Definition get_search_params (search_api : string)
    (search_api_config : option (gmap string value)) : gmap string value :=
  let accepted_params := default [] (SEARCH_API_PARAMS !! search_api) in
  match search_api_config with
  | None => ∅
  | Some config =>
      if bool_decide (config = ∅) then ∅
      else filter (fun kv => kv.1 ∈ accepted_params) config
  end.

End SearchParams.

(** ** multi_agent.py: the second fan-out *)
Module FinalSections.

(** A [Send] to [write_final_sections] with its argument. *)
Record FinalSend : Type := mkFinalSend {
  final_node : string;
  final_topic : string;
  final_section : Section_;
  final_context : string      (* the key [report_sections_from_research] *)
}.

(** The writer model of the sections that need no research. *)
Class FinalWriter : Type := {
  final_section_writer_llm : FinalSend -> result string
}.

(** Returns the update [{"completed_sections": [section]}]. *)
Definition write_final_sections_node `{FinalWriter} (state : FinalSend)
    : result (list Section_) :=
  section_content ← final_section_writer_llm state;
  Ok [set_content (final_section state) section_content].

(** The comprehension reads [state["sections"]] once, and
    [state["topic"]] and [state["report_sections_from_research"]] for
    each section it keeps. *)
Definition initiate_final_section_writing_edge (state : ReportState)
    : result (list FinalSend) :=
  sections ← getitem "sections" (sections state);
  match filter (fun s => research s = false) sections with
  | [] => Ok []
  | kept =>
      topic ← getitem "topic" (topic state);
      context ← getitem "report_sections_from_research"
                  (report_sections_from_research state);
      Ok (map (fun s => {| final_node := "write_final_sections";
                           final_topic := topic; final_section := s;
                           final_context := context |}) kept)
  end.

(** What the router returns: a list of [Send], or the name of a node. *)
Inductive Route : Type :=
| RouteSends (tasks : list FinalSend)
| RouteNode (node : string).

Definition router_after_gather_sections (state : ReportState) : result Route :=
  sections ← getitem "sections" (sections state);
  if existsb (fun s => negb (research s)) sections
  then tasks ← initiate_final_section_writing_edge state; Ok (RouteSends tasks)
  else Ok (RouteNode "compile_final_report").

End FinalSections.

Import SearchParams FinalSections.

(** The sections a command of the approval node dispatches. *)
Definition research_dispatch (cmd : Command) : list Section_ :=
  match goto cmd with
  | GotoSends tasks => (s_section ∘ send_arg) <$> tasks
  | GotoNode _ => []
  end.

(** The sections a route of the router dispatches. *)
Definition final_dispatch (route : Route) : list Section_ :=
  match route with
  | RouteSends tasks => final_section <$> tasks
  | RouteNode _ => []
  end.

(** What a loop started for the section [s0] holds and has emitted. *)
Definition carries (s0 : Section_) (m : Machine) : Prop :=
  name (s_section (st m)) = name s0
  ∧ description (s_section (st m)) = description s0
  ∧ research (s_section (st m)) = research s0
  ∧ match at_node m with
    | END => ∃ text, emitted m = [set_content s0 text]
    | _ => emitted m = []
    end.

(** Nodes still to run, at most, whatever the depth and the counter. *)
Definition budget (cfg : Configurable) (m : Machine) : nat :=
  let n := search_iterations (st m) in
  let depth := max_search_depth cfg in
  match at_node m with
  | generate_queries => 3 + 2 * Z.to_nat (depth - n - 1)
  | search_web => 2 + 2 * Z.to_nat (depth - n - 1)
  | write_section => 1 + 2 * Z.to_nat (depth - n)
  | END => 0
  end%nat.

(** The counter of a loop started at 0, for any depth. *)
Definition counted (cfg : Configurable) (m : Machine) : Prop :=
  let n := search_iterations (st m) in
  let bound := Z.max 1 (max_search_depth cfg) in
  match at_node m with
  | generate_queries => n = 0
  | search_web => 0 <= n < bound
  | write_section | END => 1 <= n <= bound
  end.

(** The text [tavily_search] returns when it has nothing to show. *)
Definition no_results_message : string :=
  "No valid search results or answers found. Please try different search queries.".

(** The line feed, and the text of blocks separated by blank lines,
    written out for the statements below. *)
Definition newline : string := "
".

Fixpoint blank_line_separated (blocks : list string) : string :=
  match blocks with
  | [] => ""
  | [block] => block
  | block :: rest => block +:+ newline +:+ newline +:+ blank_line_separated rest
  end.

(** ** The example run, continued *)
Module Continued.

(** After the gather node, with the research context in the state. *)
Definition gathered : ReportState :=
  mkReportState (Some "X") (Some Scenario.planned)
    (Some [Scenario.B_done; Scenario.A_done])
    (Some (format_sections [Scenario.B_done; Scenario.A_done])).

(** A final writer that always answers. *)
Definition closing : FinalWriter :=
  {| final_section_writer_llm := fun _ => Ok "closing text" |}.

(** A second completion of B, after the first. *)
Definition B_again : Section_ := set_content Scenario.B "second text of B".

(** A completed section that is not in the plan. *)
Definition stray : Section_ := mkSection "Appendix" "not planned" true (Some "stray").

End Continued.

(** * Properties *)

(** ** The model on the example run *)

Example upper_field_name : upper "max_search_depth" = "MAX_SEARCH_DEPTH".
Proof. reflexivity. Qed.

Example strip_both_ends : strip (" a b " +:+ nl) = "a b".
Proof. reflexivity. Qed.

Example compile_all_done :
  compile_final_report_node Scenario.all_done
  = Ok "## A

text of A

## B

text of B

## C

text of C".
Proof. reflexivity. Qed.

Example compile_B_missing :
  compile_final_report_node Scenario.B_missing
  = Ok "## A

text of A

## B

[Content for section 'B' not found/completed]

## C

text of C".
Proof. reflexivity. Qed.

Example search_flaky_batch :
  @tavily_search Scenario.flaky ["alpha"; "beta"]
  = "No valid search results or answers found. Please try different search queries.".
Proof. by vm_compute. Qed.

Example sources_of_overlapping :
  (unique_results_by_url Scenario.overlapping).*1
  = ["http://a.example"; "http://b.example"; "http://c.example"].
Proof. by vm_compute. Qed.

(** With depth 1 a section is forced complete after one search round
    although the grader fails it. *)
Example strict_run_depth_1 :
  (fun r => (at_node r.1, search_iterations (st r.1), log r.1, r.2))
    <$> @run Scenario.strict 3 (Scenario.depth 1)
          (start (research_task "X" Scenario.A))
  = Some (END, 1, [Searched; Graded fail], None).
Proof. by vm_compute. Qed.

Example strict_run_depth_2 :
  (fun r => (at_node r.1, search_iterations (st r.1), log r.1, r.2))
    <$> @run Scenario.strict 5 (Scenario.depth 2)
          (start (research_task "X" Scenario.A))
  = Some (END, 2, [Searched; Graded fail; Searched; Graded fail], None).
Proof. by vm_compute. Qed.

Example lenient_run_depth_2 :
  (fun r => (at_node r.1, search_iterations (st r.1), log r.1, r.2))
    <$> @run Scenario.lenient 5 (Scenario.depth 2)
          (start (research_task "X" Scenario.A))
  = Some (END, 1, [Searched; Graded pass], None).
Proof. by vm_compute. Qed.

Example resolve_max_search_depth :
  @from_runnable_config Scenario.accept_all Scenario.environment
    Scenario.runnable_config
  = Ok [ ("report_structure", VStr DEFAULT_REPORT_STRUCTURE);
         ("number_of_queries", VInt 4);
         ("max_search_depth", VStr "3");
         ("planner_provider", VStr "openai");
         ("planner_model", VStr "gpt-4.1");
         ("planner_model_kwargs", VNone);
         ("writer_provider", VStr "openai");
         ("writer_model", VStr "gpt-4.1");
         ("writer_model_kwargs", VNone);
         ("search_api", VSearchAPI TAVILY);
         ("search_api_config", VNone);
         ("supervisor_model", VStr "openai:gpt-4.1");
         ("researcher_model", VStr "openai:gpt-4.1") ].
Proof. by vm_compute. Qed.


(** ** Strings *)
Section StringFacts.

Lemma app_cons_s (c : ascii) (a b : string) :
  String c a +:+ b = String c (a +:+ b).
Proof. reflexivity. Qed.

Lemma app_empty_l (s : string) : "" +:+ s = s.
Proof. reflexivity. Qed.

Lemma app_empty_r (s : string) : s +:+ "" = s.
Proof.
  induction s as [|c s' IH]; [done |]. by rewrite app_cons_s, IH.
Qed.

Lemma app_assoc_s (a b c : string) : (a +:+ b) +:+ c = a +:+ (b +:+ c).
Proof.
  induction a as [|x a' IH]; [done |]. by rewrite !app_cons_s, IH.
Qed.

Lemma app_cancel_l (a b c : string) : a +:+ b = a +:+ c -> b = c.
Proof. apply String.app_inj. Qed.

End StringFacts.

(** ** The compiler *)
Section Compiler.

Implicit Types (planned completed : list Section_) (p s : Section_).

Lemma completed_content_map_snoc completed s :
  completed_content_map (completed ++ [s])
  = <[name s := content s]> (completed_content_map completed).
Proof. unfold completed_content_map. by rewrite foldl_snoc. Qed.

Lemma completed_content_map_absent completed n :
  n ∉ name <$> completed -> completed_content_map completed !! n = None.
Proof.
  induction completed as [|s completed IH] using rev_ind; intros Hn.
  - apply lookup_empty.
  - rewrite completed_content_map_snoc. rewrite fmap_app in Hn.
    apply not_elem_of_app in Hn as [Hl Hs].
    rewrite lookup_insert_ne; [by apply IH |].
    intros <-. apply Hs. simpl. by left.
Qed.

(** The entry of a name is that of the last section carrying it. *)
Lemma completed_content_map_last c1 s c2 :
  name s ∉ name <$> c2 ->
  completed_content_map (c1 ++ s :: c2) !! name s = Some (content s).
Proof.
  induction c2 as [|t c2 IH] using rev_ind; intros Hn.
  - rewrite completed_content_map_snoc. apply lookup_insert_eq.
  - rewrite fmap_app in Hn. apply not_elem_of_app in Hn as [Hl Ht].
    replace (c1 ++ s :: c2 ++ [t]) with ((c1 ++ s :: c2) ++ [t])
      by (by rewrite <- app_assoc).
    rewrite completed_content_map_snoc, lookup_insert_ne; [by apply IH |].
    intros E. apply Ht. simpl. rewrite E. by left.
Qed.

(** Every name of the collection has an entry, which comes from one of
    the sections carrying it. *)
Lemma completed_content_map_present completed n :
  n ∈ name <$> completed ->
  ∃ s, s ∈ completed ∧ name s = n
       ∧ completed_content_map completed !! n = Some (content s).
Proof.
  induction completed as [|t completed IH] using rev_ind; intros Hn.
  - by apply elem_of_nil in Hn.
  - rewrite completed_content_map_snoc.
    destruct (decide (name t = n)) as [E|E].
    + exists t. split; [apply elem_of_app; right; by left |].
      split; [done |]. subst n. apply lookup_insert_eq.
    + rewrite fmap_app in Hn. apply elem_of_app in Hn as [Hn|Hn].
      * destruct (IH Hn) as (s & Hs & Hname & Hl).
        exists s. split; [apply elem_of_app; by left |]. split; [done |].
        by rewrite lookup_insert_ne.
      * simpl in Hn. apply list_elem_of_singleton in Hn. congruence.
Qed.



(** The loop appends one part per planned section, in order. *)
Lemma final_report_parts_map planned completed :
  final_report_parts planned completed
  = (fun p => header p +:+ content_str (completed_content_map completed) p) <$> planned.
Proof.
  unfold final_report_parts.
  set (f := fun p => header p +:+ content_str (completed_content_map completed) p).
  assert (H : ∀ acc, foldl (fun parts p => parts ++ [f p]) acc planned
                     = acc ++ (f <$> planned)).
  { induction planned as [|p planned IH]; intros acc; simpl.
    - by rewrite app_nil_r.
    - rewrite IH. by rewrite <- app_assoc. }
  apply (H []).
Qed.

Lemma final_report_parts_length planned completed :
  length (final_report_parts planned completed) = length planned.
Proof. by rewrite final_report_parts_map, length_fmap. Qed.

Lemma final_report_parts_lookup planned completed i p :
  planned !! i = Some p ->
  final_report_parts planned completed !! i
  = Some (header p +:+ content_str (completed_content_map completed) p).
Proof. intros H. by rewrite final_report_parts_map, list_lookup_fmap, H. Qed.

End Compiler.

Section CompilerClaims.

Implicit Types (planned completed : list Section_) (p s : Section_).

Lemma content_str_present completed p s :
  completed_content_map completed !! name p = Some (content s) ->
  content_str (completed_content_map completed) p = rendered (name p) (content s).
Proof. unfold content_str. intros ->. reflexivity. Qed.

Lemma content_str_absent completed p :
  name p ∉ name <$> completed ->
  content_str (completed_content_map completed) p = not_found_text (name p).
Proof.
  intros H. unfold content_str.
  by rewrite (completed_content_map_absent _ _ H).
Qed.

(** Completing one more section leaves the entries of all other names
    as they were. *)
Lemma completed_content_map_other c1 s c2 n :
  n ≠ name s ->
  completed_content_map (c1 ++ s :: c2) !! n = completed_content_map (c1 ++ c2) !! n.
Proof.
  intros Hn. induction c2 as [|t c2 IH] using rev_ind.
  - rewrite completed_content_map_snoc, app_nil_r. by rewrite lookup_insert_ne.
  - replace (c1 ++ s :: c2 ++ [t]) with ((c1 ++ s :: c2) ++ [t])
      by (by rewrite <- app_assoc).
    rewrite (app_assoc c1 c2 [t]), !completed_content_map_snoc.
    destruct (decide (name t = n)) as [<-|E].
    + by rewrite !lookup_insert_eq.
    + by rewrite !lookup_insert_ne.
Qed.

Lemma compile_final_report_node_ok state planned :
  sections state = Some planned ->
  compile_final_report_node state
  = Ok (join (nl +:+ nl)
          (final_report_parts planned (default [] (completed_sections state)))).
Proof. unfold compile_final_report_node. intros ->. reflexivity. Qed.

Lemma join_blank_line (blocks : list string) :
  join (nl +:+ nl) blocks = blank_line_separated blocks.
Proof.
  induction blocks as [|block [|next rest] IH]; [done | done |].
  change (join (nl +:+ nl) (block :: next :: rest))
    with (block +:+ (nl +:+ nl) +:+ join (nl +:+ nl) (next :: rest)).
  change (blank_line_separated (block :: next :: rest))
    with (block +:+ newline +:+ newline +:+ blank_line_separated (next :: rest)).
  by rewrite IH, app_assoc_s.
Qed.

Lemma header_text p (body : string) :
  header p +:+ body = "## " +:+ name p +:+ newline +:+ newline +:+ body.
Proof. unfold header. by rewrite !app_assoc_s. Qed.

Lemma compile_final_report_node_text state planned :
  sections state = Some planned ->
  compile_final_report_node state
  = Ok (blank_line_separated
          (final_report_parts planned (default [] (completed_sections state)))).
Proof.
  intros Hs. by rewrite (compile_final_report_node_ok _ _ Hs), join_blank_line.
Qed.



(** C6. A planned section whose name is absent from the completed
    collection gets the line [## name], a blank line, and the fixed text
    that names it; the compiler returns normally, with one block per
    planned section, the blocks separated by blank lines; each planned
    section whose name is present gets its [## name] line followed by
    content completed under its name, and its block is the same as if
    the missing section had been completed. *)
Theorem C6_compile_missing_section state planned completed i p :
  sections state = Some planned ->
  default [] (completed_sections state) = completed ->
  planned !! i = Some p ->
  name p ∉ name <$> completed ->
  let parts := final_report_parts planned completed in
  compile_final_report_node state = Ok (blank_line_separated parts)
  ∧ length parts = length planned
  ∧ parts !! i
    = Some ("## " +:+ name p +:+ newline +:+ newline +:+
            "[Content for section '" +:+ name p +:+ "' not found/completed]")
  ∧ (∀ j q, planned !! j = Some q -> name q ∈ name <$> completed ->
       ∃ s, s ∈ completed ∧ name s = name q
            ∧ parts !! j
              = Some ("## " +:+ name q +:+ newline +:+ newline +:+
                      match content s with
                      | Some text => text
                      | None => "[Content for section '" +:+ name q +:+ "' is None]"
                      end))
  ∧ (∀ c1 c2 s j q, completed = c1 ++ c2 -> name s = name p ->
       planned !! j = Some q -> name q ≠ name p ->
       final_report_parts planned (c1 ++ s :: c2) !! j = parts !! j).
Proof.
  intros Hs Hc Hi Hmiss parts.
  split; [by rewrite (compile_final_report_node_text _ _ Hs), Hc |].
  split; [apply final_report_parts_length |]. split; [| split].
  - unfold parts. rewrite (final_report_parts_lookup _ _ _ _ Hi), header_text.
    by rewrite (content_str_absent _ _ Hmiss).
  - intros j q Hj Hq.
    destruct (completed_content_map_present _ _ Hq) as (s & Hin & Hn & Hl).
    exists s. do 2 (split; [done |]).
    unfold parts. rewrite (final_report_parts_lookup _ _ _ _ Hj), header_text.
    by rewrite (content_str_present completed q s Hl).
  - intros c1 c2 s j q -> Hn Hj Hq. unfold parts.
    rewrite !(final_report_parts_lookup _ _ _ _ Hj). unfold content_str.
    rewrite completed_content_map_other; [done | congruence].
Qed.

(** C10. A planned section whose completed entry (the last one under
    its name) holds [None] gets the line [## name], a blank line, and the
    fixed text that says so; the compiler returns normally, the blocks
    separated by blank lines; that text is neither the bare ["None"] nor
    the text for a missing section. *)
Theorem C10_compile_none_content state planned c1 s c2 i p :
  sections state = Some planned ->
  default [] (completed_sections state) = c1 ++ s :: c2 ->
  planned !! i = Some p ->
  name s = name p ->
  content s = None ->
  name p ∉ name <$> c2 ->
  let parts := final_report_parts planned (c1 ++ s :: c2) in
  compile_final_report_node state = Ok (blank_line_separated parts)
  ∧ parts !! i
    = Some ("## " +:+ name p +:+ newline +:+ newline +:+
            "[Content for section '" +:+ name p +:+ "' is None]")
  ∧ "[Content for section '" +:+ name p +:+ "' is None]" ≠ "None"
  ∧ "[Content for section '" +:+ name p +:+ "' is None]"
    ≠ "[Content for section '" +:+ name p +:+ "' not found/completed]".
Proof.
  intros Hs Hc Hi Hn Hnone Hlast parts.
  split; [by rewrite (compile_final_report_node_text _ _ Hs), Hc |].
  split; [| split].
  - unfold parts. rewrite (final_report_parts_lookup _ _ _ _ Hi), header_text.
    rewrite <- Hn in Hlast.
    pose proof (completed_content_map_last c1 s c2 Hlast) as Hl.
    rewrite Hn in Hl. rewrite (content_str_present _ p s Hl), Hnone.
    reflexivity.
  - discriminate.
  - intros E. apply app_cancel_l, app_cancel_l in E. discriminate E.
Qed.


End CompilerClaims.

(** ** The approval node and the fan-out *)
Section FanOut.

Lemma is_empty_nil {A} (l : list A) : is_empty l = true <-> l = [].
Proof. destruct l; simpl; split; congruence. Qed.

Lemma research_task_section t (planned : list Section_) :
  (s_section ∘ send_arg) <$> (research_task t <$> planned) = planned.
Proof.
  induction planned as [|s planned IH]; [done |].
  rewrite !fmap_cons, IH. reflexivity.
Qed.

Lemma human_feedback_node_eq state t (planned : list Section_) :
  topic state = Some t ->
  sections state = Some planned ->
  human_feedback_node state
  = let research_tasks :=
      research_task t <$> filter (fun s => research s = true) planned in
    Ok {| goto := if is_empty research_tasks
                  then GotoNode "gather_completed_sections"
                  else GotoSends research_tasks;
          update_feedback_on_report_plan := None |}.
Proof.
  intros Ht Hs. unfold human_feedback_node. rewrite Ht, Hs. simpl.
  by destruct (is_empty _).
Qed.

(** C7. On every plan the node approves: it returns a command that
    carries no revision feedback and does not go back to the planner.
    If some planned section has the research flag, the command
    dispatches the research tasks, whose sections are exactly the
    planned sections with the flag, one task each and in planned order,
    every task starting the section graph with the counter at 0; if no
    planned section has the flag, the command goes to the gather
    node. *)
Theorem C7_approve_and_fan_out state t (planned : list Section_) :
  topic state = Some t ->
  sections state = Some planned ->
  feedback_input = FBool true
  ∧ ∃ cmd,
      human_feedback_node state = Ok cmd
      ∧ update_feedback_on_report_plan cmd = None
      ∧ goto cmd ≠ GotoNode "generate_report_plan"
      ∧ ((∃ s, s ∈ planned ∧ research s = true) ->
           ∃ tasks,
             goto cmd = GotoSends tasks
             ∧ (s_section ∘ send_arg) <$> tasks
               = filter (fun s => research s = true) planned
             ∧ length tasks
               = length (filter (fun s => research s = true) planned)
             ∧ Forall (fun task =>
                         send_node task = "build_section_with_web_research"
                         ∧ s_topic (send_arg task) = t
                         ∧ search_iterations (send_arg task) = 0) tasks)
      ∧ ((∀ s, s ∈ planned -> research s = false) ->
           goto cmd = GotoNode "gather_completed_sections").
Proof.
  intros Ht Hs. split; [reflexivity |].
  eexists. split; [apply (human_feedback_node_eq _ _ _ Ht Hs) |].
  cbv zeta. simpl.
  set (chosen := filter (fun s => research s = true) planned).
  split; [done |]. split; [by destruct (is_empty _) |]. split.
  - intros (s & Hin & Hr).
    assert (Hne : chosen ≠ []).
    { intros E. assert (s ∈ chosen) as Hc by (by apply list_elem_of_filter).
      rewrite E in Hc. by apply elem_of_nil in Hc. }
    exists (research_task t <$> chosen).
    destruct chosen as [|c chosen'] eqn:Hch; [done |].
    split; [done |]. split; [apply research_task_section |].
    split; [by rewrite length_fmap |].
    apply Forall_fmap, Forall_forall. by intros.
  - intros Hnone.
    assert (chosen = []) as ->; [| done].
    apply elem_of_nil_inv. intros s [Hr Hin]%list_elem_of_filter.
    rewrite (Hnone s Hin) in Hr. discriminate.
Qed.

End FanOut.

(** ** The configuration resolver *)
Section Resolver.

Context (env : gmap string string) (cfg : gmap string value).

Lemma resolve_field_same m f :
  resolve_field env cfg m f !! f = layered env cfg f (m !! f).
Proof.
  unfold resolve_field, layered.
  destruct (env !! upper f); [by rewrite lookup_insert_eq |].
  destruct (cfg !! f); [by rewrite lookup_insert_eq | done].
Qed.

Lemma resolve_field_other m f g :
  f ≠ g -> resolve_field env cfg m g !! f = m !! f.
Proof.
  intros Hne. unfold resolve_field.
  destruct (env !! upper g); [by rewrite lookup_insert_ne |].
  destruct (cfg !! g); [by rewrite lookup_insert_ne | done].
Qed.

Lemma layered_idem f o : layered env cfg f (layered env cfg f o) = layered env cfg f o.
Proof. unfold layered. destruct (env !! upper f); [done |]. by destruct (cfg !! f). Qed.

Lemma foldl_resolve_field_lookup fields m f :
  foldl (resolve_field env cfg) m fields !! f
  = if decide (f ∈ fields) then layered env cfg f (m !! f) else m !! f.
Proof.
  revert m. induction fields as [|g fields IH]; intros m; simpl.
  - destruct (decide (f ∈ [])) as [H|H]; [by apply elem_of_nil in H | done].
  - rewrite IH.
    destruct (decide (f ∈ fields)) as [H1|H1];
      destruct (decide (f ∈ g :: fields)) as [H2|H2];
      destruct (decide (f = g)) as [->|Hne];
      rewrite ?resolve_field_same, ?(resolve_field_other _ _ _ Hne),
              ?layered_idem;
      try done.
    + exfalso. apply H2. by right.
    + exfalso. apply H2. by right.
    + exfalso. apply elem_of_cons in H2 as [?|?]; [done | by apply H1].
    + exfalso. apply H2. by left.
Qed.

End Resolver.

Section ResolverClaims.

Context `{Pydantic}.





End ResolverClaims.

(** ** The research context text *)
Section Gather.

Lemma join_empty_cons (x : string) (l : list string) :
  join "" (x :: l) = x +:+ join "" l.
Proof. destruct l; simpl; [by rewrite app_empty_r | done]. Qed.

Lemma format_sections_loop_blocks idx formatted_str (sections : list Section_) :
  format_sections_loop idx formatted_str sections
  = formatted_str
    +:+ join "" (imap (fun k s => section_block (idx + k) s) sections).
Proof.
  revert idx formatted_str.
  induction sections as [|s sections IH]; intros idx acc.
  - simpl. by rewrite app_empty_r.
  - cbn [format_sections_loop]. rewrite IH, imap_cons, join_empty_cons.
    rewrite app_assoc_s, Nat.add_0_r. do 3 f_equal.
    apply imap_ext. intros k x _. simpl. f_equal. lia.
Qed.



End Gather.

(** ** The search batch *)
Section Batch.

Implicit Types (tasks : list Task) (t : Task).

Lemma first_raised_step_None best t :
  first_raised_step best t = None <-> best = None ∧ is_ok (outcome t) = true.
Proof.
  unfold first_raised_step. destruct (outcome t) as [r|e]; simpl.
  - tauto.
  - destruct best as [[tm e']|]; [destruct (_ <? _)%nat |]; split;
      try discriminate; intros [? ?]; discriminate.
Qed.

Lemma foldl_first_raised_None best tasks :
  foldl first_raised_step best tasks = None
  <-> best = None ∧ Forall (fun t => is_ok (outcome t) = true) tasks.
Proof.
  revert best. induction tasks as [|t tasks IH]; intros best; simpl.
  - split; [intros ->; by split | by intros [-> _]].
  - rewrite IH, first_raised_step_None, Forall_cons. tauto.
Qed.

(** No exception is propagated exactly when every call returned. *)
Lemma first_raised_None tasks :
  first_raised tasks = None <-> Forall (fun t => is_ok (outcome t) = true) tasks.
Proof. unfold first_raised. rewrite foldl_first_raised_None. tauto. Qed.

Lemma first_raised_step_from best t tm e :
  first_raised_step best t = Some (tm, e) ->
  best = Some (tm, e) ∨ outcome t = Raise e.
Proof.
  unfold first_raised_step. destruct (outcome t) as [r|e']; [by left |].
  destruct best as [[tm' e'']|].
  - destruct (_ <? _)%nat; intros [= <- <-]; [by right | by left].
  - intros [= <- <-]. by right.
Qed.

(** The propagated exception was raised by a call of the batch. *)
Lemma foldl_first_raised_from best tasks tm e :
  foldl first_raised_step best tasks = Some (tm, e) ->
  best = Some (tm, e) ∨ ∃ t, t ∈ tasks ∧ outcome t = Raise e.
Proof.
  revert best. induction tasks as [|t tasks IH]; intros best; simpl.
  - by left.
  - intros Hf. destruct (IH _ Hf) as [Hb|(t' & Hin & Ht')].
    + destruct (first_raised_step_from _ _ _ _ Hb) as [?|?]; [by left |].
      right. exists t. split; [by left | done].
    + right. exists t'. split; [by right | done].
Qed.

(** When every call returned, [gather] hands back the replies by
    position. *)
Lemma omap_returned_lookup tasks :
  Forall (fun t => is_ok (outcome t) = true) tasks ->
  length (omap returned tasks) = length tasks
  ∧ ∀ i, omap returned tasks !! i = tasks !! i ≫= returned.
Proof.
  induction 1 as [|t tasks Ht _ [IHlen IH]]; [by split |].
  assert (∃ r, returned t = Some r) as [r Hr].
  { unfold returned. destruct (outcome t); [by eexists | discriminate]. }
  cbn [omap list_omap]. rewrite Hr. split.
  - simpl. by rewrite IHlen.
  - intros [|i]; simpl; [by rewrite Hr | apply IH].
Qed.

End Batch.

Section BatchClaims.

Context `{TavilyClient}.

Lemma search_tasks_ok (queries : list string) :
  Forall (fun t => is_ok (outcome t) = true) (imap client_search queries)
  <-> ∀ i q, queries !! i = Some q -> is_ok (outcome (client_search i q)) = true.
Proof.
  rewrite Forall_lookup. split.
  - intros Hall i q Hq. apply (Hall i). by rewrite list_lookup_imap, Hq.
  - intros Hall i t. rewrite list_lookup_imap.
    destruct (queries !! i) as [q|] eqn:Hq; [| discriminate].
    intros [= <-]. by apply Hall.
Qed.

Lemma search_tasks_elem (queries : list string) t :
  t ∈ imap client_search queries ->
  ∃ i q, queries !! i = Some q ∧ t = client_search i q.
Proof.
  intros (i & Hi)%list_elem_of_lookup. rewrite list_lookup_imap in Hi.
  destruct (queries !! i) as [q|] eqn:Hq; [| discriminate].
  injection Hi as <-. by exists i, q.
Qed.

(** C1, as the code has it.  The batch never raises and returns one
    entry per query.  If some call of the batch raises, every entry of
    the result is an error object: for each query, in order, the query,
    the message of one exception raised in the batch, and an empty
    result list.  If no call raises, the entry at each position is the
    reply to the query at that position. *)
Theorem C1_batch_all_or_nothing (queries : list string) :
  length (tavily_search_async queries) = length queries
  ∧ ((∃ i q e, queries !! i = Some q ∧ outcome (client_search i q) = Raise e) ->
       ∃ e, (∃ i q, queries !! i = Some q ∧ outcome (client_search i q) = Raise e)
            ∧ ∀ i q, queries !! i = Some q ->
                tavily_search_async queries !! i
                = Some {| query := q; error := Some (str_of_exn e);
                          results := []; follow_up_questions := None;
                          answer := None; images := None |})
  ∧ ((∀ i q, queries !! i = Some q -> is_ok (outcome (client_search i q)) = true) ->
       ∀ i q, queries !! i = Some q ->
         tavily_search_async queries !! i = returned (client_search i q)).
Proof.
  unfold tavily_search_async, gather.
  destruct (first_raised (imap client_search queries)) as [[tm e]|] eqn:Hfr.
  - split; [by rewrite length_map |]. split.
    + intros _. exists e. split.
      * apply foldl_first_raised_from in Hfr as [?|(t & Hin & Ht)]; [done |].
        apply search_tasks_elem in Hin as (i & q & Hq & ->). eauto.
      * intros i q Hq. change (map (error_object e) queries)
          with (error_object e <$> queries).
        by rewrite list_lookup_fmap, Hq.
    + intros Hall. apply search_tasks_ok, first_raised_None in Hall. congruence.
  - apply first_raised_None in Hfr.
    destruct (omap_returned_lookup _ Hfr) as [Hlen Hlook].
    split; [by rewrite Hlen, length_imap |]. split.
    + intros (i & q & e & Hq & He).
      rewrite search_tasks_ok in Hfr. specialize (Hfr i q Hq).
      rewrite He in Hfr. discriminate.
    + intros _ i q Hq. by rewrite Hlook, list_lookup_imap, Hq.
Qed.

End BatchClaims.

(** C1 as stated fails: in a batch of two queries where the first call
    returns a reply with one result and the second raises, both entries
    of the result are error objects, and the entry for the first query
    does not carry the result of its reply. *)
Lemma C1_counterexample :
  outcome (@client_search Scenario.flaky 0%nat "alpha")
  = Ok (Scenario.reply "alpha" [Scenario.page "http://a.example"])
  ∧ outcome (@client_search Scenario.flaky 1%nat "beta")
    = Raise (Exception "timed out")
  ∧ @tavily_search_async Scenario.flaky ["alpha"; "beta"]
    = [ {| query := "alpha"; error := Some "timed out"; results := [];
           follow_up_questions := None; answer := None; images := None |};
        {| query := "beta"; error := Some "timed out"; results := [];
           follow_up_questions := None; answer := None; images := None |} ]
  ∧ results <$> (@tavily_search_async Scenario.flaky ["alpha"; "beta"] !! 0%nat)
    ≠ Some [Scenario.page "http://a.example"].
Proof. repeat split; by vm_compute. Qed.

(** ** Stripping and prefixes of the search text *)
Section SearchTextFacts.

Lemma lstrip_keeps c s : isspace c = false -> lstrip (String c s) = String c s.
Proof. intros Hc. simpl. by rewrite Hc. Qed.

Lemma rstrip_keeps (a : string) c (b : string) :
  isspace c = false ->
  rstrip (a +:+ String c b) = a +:+ String c (rstrip b).
Proof.
  intros Hc. induction a as [|x a IH].
  - rewrite !app_empty_l. simpl. rewrite Hc. by destruct (rstrip b).
  - rewrite !app_cons_s. cbn [rstrip]. rewrite IH.
    destruct a; [by rewrite app_empty_l | by rewrite app_cons_s].
Qed.

Lemma scan_response_prefix acc response (pre rest : string) :
  acc.1 = pre +:+ rest ->
  ∃ rest', (scan_response acc response).1 = pre +:+ rest'.
Proof.
  intros Hacc. unfold scan_response.
  destruct (truthy (error response)); [| destruct (truthy (answer response))];
    simpl; rewrite ?Hacc, ?app_assoc_s; by eexists.
Qed.

Lemma foldl_scan_response_prefix acc (responses : list Response) (pre rest : string) :
  acc.1 = pre +:+ rest ->
  ∃ rest', (foldl scan_response acc responses).1 = pre +:+ rest'.
Proof.
  revert acc rest. induction responses as [|response responses IH];
    intros acc rest Hacc; simpl; [by eexists |].
  destruct (scan_response_prefix acc response pre rest Hacc) as [rest' Hr].
  by apply (IH _ rest').
Qed.

Lemma strip_final_newline (a : string) :
  strip (String "S" (a +:+ String "-" newline)) +:+ newline
  = String "S" (a +:+ String "-" newline).
Proof.
  unfold strip. rewrite lstrip_keeps by reflexivity.
  change (String "S" (a +:+ String "-" newline))
    with (String "S" a +:+ String "-" newline).
  rewrite rstrip_keeps by reflexivity. by rewrite app_assoc_s.
Qed.

Lemma ends_after (x s t : string) :
  (∃ a, s = a +:+ t) -> ∃ a, x +:+ s = a +:+ t.
Proof. intros [a ->]. exists (x +:+ a). by rewrite app_assoc_s. Qed.

Lemma concat_ends (blocks : list string) (t : string) :
  blocks ≠ [] ->
  (∀ b, b ∈ blocks -> ∃ a, b = a +:+ t) ->
  ∃ a, foldr (fun block text => block +:+ text) "" blocks = a +:+ t.
Proof.
  induction blocks as [|b [|b' rest] IH]; intros Hne Hall; [done | |].
  - simpl. rewrite app_empty_r. apply Hall. by left.
  - cbn [foldr]. apply ends_after. apply IH; [done |].
    intros x Hx. apply Hall. by right.
Qed.

Lemma join_empty_foldr (blocks : list string) :
  join "" blocks = foldr (fun block text => block +:+ text) "" blocks.
Proof.
  induction blocks as [|b [|b' rest] IH]; [done | |].
  - simpl. by rewrite app_empty_r.
  - change (join "" (b :: b' :: rest)) with (b +:+ "" +:+ join "" (b' :: rest)).
    by rewrite IH.
Qed.

End SearchTextFacts.

(** ** Deduplication of the search results *)
Section Dedup.

Implicit Types (unique : list (string * Result)) (r : Result) (u : string).

Lemma truthy_Some u : truthy (Some u) = true <-> u ≠ "".
Proof. destruct u; simpl; split; congruence. Qed.

(** What one result does to the dictionary. *)
Lemma add_result_cases unique r :
  add_result unique r = unique
  ∧ (∀ u, url r = Some u -> u ≠ "" -> u ∈ unique.*1)
  ∨ ∃ u, url r = Some u ∧ u ≠ "" ∧ (u ∉ unique.*1)
         ∧ add_result unique r = unique ++ [(u, r)].
Proof.
  unfold add_result. destruct (url r) as [u|]; [| left; by split].
  destruct (truthy (Some u)) eqn:Ht; simpl.
  - apply truthy_Some in Ht. case_bool_decide as Hin; simpl.
    + left. split; [done |]. by intros ? [= <-] _.
    + right. by exists u.
  - left. split; [done |]. intros ? [= <-] Hne.
    apply truthy_Some in Hne. congruence.
Qed.

Lemma add_result_NoDup unique r :
  NoDup unique.*1 -> NoDup (add_result unique r).*1.
Proof.
  intros Hnd. destruct (add_result_cases unique r) as [[-> _]|(u & _ & _ & Hout & ->)];
    [done |].
  rewrite fmap_app. apply NoDup_app. split; [done |]. split.
  - intros x Hx [->|[]%elem_of_nil]%elem_of_cons. by apply Hout.
  - apply NoDup_singleton.
Qed.

Lemma add_result_keys unique r u :
  u ∈ (add_result unique r).*1 <-> u ∈ unique.*1 ∨ (u ≠ "" ∧ url r = Some u).
Proof.
  destruct (add_result_cases unique r) as [[-> Hin]|(u' & Hu' & Hne & Hout & ->)].
  - split; [by left |]. intros [?|[? ?]]; [done | by apply Hin].
  - rewrite fmap_app, elem_of_app. simpl. rewrite list_elem_of_singleton.
    split; intros [?|Hr]; try (by left).
    + subst u. by right.
    + right. destruct Hr as [_ Hr]. congruence.
Qed.

Lemma add_result_entries unique r u r' :
  (u, r') ∈ add_result unique r -> (u, r') ∈ unique ∨ (r' = r ∧ url r = Some u).
Proof.
  destruct (add_result_cases unique r) as [[-> _]|(u' & Hu' & _ & _ & ->)];
    [by left |].
  rewrite elem_of_app, list_elem_of_singleton.
  intros [?|[= -> ->]]; [by left | by right].
Qed.

Lemma foldl_add_result_NoDup unique (rs : list Result) :
  NoDup unique.*1 -> NoDup (foldl add_result unique rs).*1.
Proof.
  revert unique. induction rs as [|r rs IH]; intros unique Hnd; simpl; [done |].
  by apply IH, add_result_NoDup.
Qed.

Lemma foldl_add_result_keys unique (rs : list Result) u :
  u ∈ (foldl add_result unique rs).*1
  <-> u ∈ unique.*1 ∨ (u ≠ "" ∧ ∃ r, r ∈ rs ∧ url r = Some u).
Proof.
  revert unique. induction rs as [|r rs IH]; intros unique; simpl.
  - split; [by left |]. intros [?|(_ & r & []%elem_of_nil & _)]. done.
  - rewrite IH, add_result_keys. split.
    + intros [[?|[? ?]]|(? & r' & ? & ?)].
      * by left.
      * right. split; [done |]. exists r. split; [by left | done].
      * right. split; [done |]. exists r'. split; [by right | done].
    + intros [?|(? & r' & [->|?]%elem_of_cons & ?)].
      * left. by left.
      * left. by right.
      * right. split; [done |]. by exists r'.
Qed.

Lemma foldl_add_result_entries unique (rs : list Result) u r' :
  (u, r') ∈ foldl add_result unique rs -> (u, r') ∈ unique ∨ url r' = Some u.
Proof.
  revert unique. induction rs as [|r rs IH]; intros unique; simpl; [by left |].
  intros [[?|[-> ?]]%add_result_entries|?]%IH; [by left | by right | by right].
Qed.

Lemma scan_response_sources acc response :
  (scan_response acc response).2
  = if truthy (error response) then acc.2
    else foldl add_result acc.2 (results response).
Proof. unfold scan_response. by destruct (truthy (error response)). Qed.

Lemma foldl_scan_response_NoDup acc (responses : list Response) :
  NoDup acc.2.*1 -> NoDup (foldl scan_response acc responses).2.*1.
Proof.
  revert acc. induction responses as [|response responses IH]; intros acc Hnd;
    simpl; [done |].
  apply IH. rewrite scan_response_sources.
  destruct (truthy (error response)); [done |].
  by apply foldl_add_result_NoDup.
Qed.

Lemma foldl_scan_response_keys acc (responses : list Response) u :
  u ∈ (foldl scan_response acc responses).2.*1
  <-> u ∈ acc.2.*1
      ∨ (u ≠ "" ∧ ∃ response r, response ∈ responses ∧ usable response
                                ∧ r ∈ results response ∧ url r = Some u).
Proof.
  revert acc. induction responses as [|response responses IH]; intros acc; simpl.
  - split; [by left |]. intros [?|(_ & ? & ? & []%elem_of_nil & _)]. done.
  - rewrite IH, scan_response_sources. unfold usable.
    destruct (truthy (error response)) eqn:He.
    + split.
      * intros [?|(? & resp & r & ? & ? & ? & ?)]; [by left |].
        right. split; [done |]. exists resp, r. split; [by right | done].
      * intros [?|(? & resp & r & [->|?]%elem_of_cons & Hu & ? & ?)];
          [by left | congruence |].
        right. split; [done |]. by exists resp, r.
    + rewrite foldl_add_result_keys. split.
      * intros [[?|(? & r & ? & ?)]|(? & resp & r & ? & ? & ? & ?)].
        -- by left.
        -- right. split; [done |]. exists response, r. split; [by left | done].
        -- right. split; [done |]. exists resp, r. split; [by right | done].
      * intros [?|(? & resp & r & [->|?]%elem_of_cons & Hu & ? & ?)].
        -- left. by left.
        -- left. right. split; [done |]. by exists r.
        -- right. split; [done |]. by exists resp, r.
Qed.

Lemma foldl_scan_response_entries acc (responses : list Response) u r :
  (u, r) ∈ (foldl scan_response acc responses).2 ->
  (u, r) ∈ acc.2 ∨ url r = Some u.
Proof.
  revert acc. induction responses as [|response responses IH]; intros acc; simpl;
    [by left |].
  intros [Hin|?]%IH; [| by right].
  rewrite scan_response_sources in Hin.
  destruct (truthy (error response)); [by left |].
  by apply foldl_add_result_entries in Hin.
Qed.

Lemma format_sources_blocks i formatted_output (entries : list (string * Result)) :
  format_sources i formatted_output entries
  = formatted_output
    +:+ join "" (imap (fun k entry => source_block (i + k) entry) entries).
Proof.
  revert i formatted_output.
  induction entries as [|entry entries IH]; intros i acc.
  - simpl. by rewrite app_empty_r.
  - cbn [format_sources]. rewrite IH, imap_cons, join_empty_cons.
    rewrite app_assoc_s, Nat.add_0_r. do 3 f_equal.
    apply imap_ext. intros k x _. simpl. f_equal. lia.
Qed.

Lemma foldl_scan_response_text (line : Response -> string) acc
    (responses : list Response) :
  (∀ acc' response, (scan_response acc' response).1 = acc'.1 +:+ line response) ->
  (foldl scan_response acc responses).1
  = foldl (fun text response => text +:+ line response) acc.1 responses.
Proof.
  intros Hline. revert acc.
  induction responses as [|response responses IH]; intros acc; simpl; [done |].
  by rewrite IH, Hline.
Qed.

(** C8.  The sources of the formatted text are the entries of
    [unique_results_by_url]: their URLs are pairwise distinct; a URL is
    among them exactly when it is a non-empty URL of a result of a
    response without error; each entry is a result with that URL.  When
    there is a source, the text, with its stripped final line feed put
    back, is [Search results:] and a blank line, the error or answer
    line of each response, and then one block per source in order, the
    block of a source being its numbered title line, the line
    [URL: url], its summary, the preview of its raw content if it has
    one, and a rule: each distinct URL gets exactly one block with its
    [URL:] line, however many queries returned it. *)
Theorem C8_each_url_listed_once (search_responses : list Response) :
  let sources := unique_results_by_url search_responses in
  NoDup sources.*1
  ∧ (∀ u, u ∈ sources.*1
          <-> u ≠ "" ∧ ∃ response r, response ∈ search_responses
                                     ∧ truthy (error response) = false
                                     ∧ r ∈ results response ∧ url r = Some u)
  ∧ (∀ u r, (u, r) ∈ sources -> url r = Some u)
  ∧ (sources ≠ [] ->
       format_search_responses search_responses +:+ newline
       = foldl (fun text response =>
                  text +:+
                  match error response with
                  | Some (String c e) =>
                      "Error for query '" +:+ query response +:+ "': " +:+
                      String c e +:+ newline +:+ newline
                  | _ =>
                      match answer response with
                      | Some (String c a) =>
                          "Direct Answer for query '" +:+ query response +:+ "': " +:+
                          String c a +:+ newline +:+ newline
                      | _ => ""
                      end
                  end)
               ("Search results:" +:+ newline +:+ newline) search_responses
         +:+ foldr (fun block text => block +:+ text) ""
               (imap (fun k entry =>
                        newline +:+ newline +:+
                        "--- SOURCE " +:+ NilZero.string_of_uint (Nat.to_uint (S k)) +:+
                        ": " +:+
                        match title entry.2 with
                        | Absent => "N/A"
                        | IsNone => "None"
                        | Str t => t
                        end +:+ " ---" +:+ newline +:+
                        "URL: " +:+ entry.1 +:+ newline +:+ newline +:+
                        "SUMMARY:" +:+ newline +:+
                        match summary entry.2 with
                        | Absent => "N/A"
                        | IsNone => "None"
                        | Str t => t
                        end +:+ newline +:+ newline +:+
                        match raw_content entry.2 with
                        | Some (String c raw) =>
                            "FULL CONTENT (preview):" +:+ newline +:+
                            String.substring 0 10000 (String c raw) +:+
                            (if (10000 <? String.length (String c raw))%nat
                             then "..." else "")
                        | _ => ""
                        end +:+
                        newline +:+ newline +:+
                        "--------------------------------------------------------------------------------"
                        +:+ newline)
                  sources)).
Proof.
  intros sources. unfold sources, unique_results_by_url, scan_responses.
  split; [| split; [| split]].
  - apply foldl_scan_response_NoDup. simpl. constructor.
  - intros u. rewrite foldl_scan_response_keys. simpl. unfold usable.
    split; [intros [[]%elem_of_nil|?]; done | by right].
  - intros u r [[]%elem_of_nil|?]%foldl_scan_response_entries. done.
  - intros Hne. unfold format_search_responses, scan_responses.
    match goal with
    | |- _ = foldl ?f _ _ +:+ foldr _ _ (imap ?b _) =>
        set (lines := f); set (block := b)
    end.
    pose proof (foldl_scan_response_text
                  (fun response => lines "" response)
                  ("Search results:" +:+ nl +:+ nl, []) search_responses) as Htext.
    destruct (foldl_scan_response_prefix ("Search results:" +:+ nl +:+ nl, [])
                search_responses "Search results:" (nl +:+ nl) eq_refl)
      as [rest Hpre].
    destruct (foldl scan_response _ search_responses) as [out unique] eqn:Hscan.
    simpl in Hne, Hpre, Htext |- *.
    assert (Hout : out = foldl lines ("Search results:" +:+ newline +:+ newline)
                           search_responses).
    { rewrite Htext; [done |]. intros acc response. unfold scan_response, lines.
      destruct (error response) as [[|c e]|]; simpl;
        destruct (answer response) as [[|c' a]|]; simpl;
        by rewrite ?app_empty_r. }
    assert (Hblocks : format_sources 1 out unique
                      = out +:+ foldr (fun b text => b +:+ text) "" (imap block unique)).
    { rewrite format_sources_blocks, join_empty_foldr. do 2 f_equal.
      apply imap_ext. intros k [u r] _. unfold source_block, block. simpl.
      by destruct (raw_content r) as [[|c raw]|]. }
    destruct unique as [|entry unique]; [done |]. cbn [is_empty andb].
    rewrite Hblocks, <- Hout.
    destruct (concat_ends (imap block (entry :: unique)) (String "-" newline))
      as [a Ha].
    { by rewrite imap_cons. }
    { intros b (k & [u r] & -> & _)%elem_of_lookup_imap. unfold block.
      do 18 apply ends_after.
      exists (newline +:+ newline +:+ str_mul "-" 79). reflexivity. }
    rewrite Ha, Hpre, <- (app_assoc_s ("Search results:" +:+ rest) a).
    exact (strip_final_newline (("earch results:" +:+ rest) +:+ a)).
Qed.

End Dedup.

(** ** The section research loop *)
Section Loop.

Context `{Gateways} (cfg : Configurable).

Lemma searches_snoc_searched l : searches (l ++ [Searched]) = S (searches l).
Proof.
  unfold searches. rewrite filter_app, length_app.
  rewrite filter_cons_True by done. simpl. lia.
Qed.

Lemma searches_snoc_graded l g : searches (l ++ [Graded g]) = searches l.
Proof.
  unfold searches. rewrite filter_app, length_app.
  rewrite filter_cons_False by done. simpl. lia.
Qed.

Lemma gradings_snoc_searched l : gradings (l ++ [Searched]) = gradings l.
Proof.
  unfold gradings. rewrite filter_app, length_app.
  rewrite filter_cons_False by (intros E; by apply E). simpl. lia.
Qed.

Lemma gradings_snoc_graded l g : gradings (l ++ [Graded g]) = S (gradings l).
Proof.
  unfold gradings. rewrite filter_app, length_app.
  rewrite filter_cons_True by done. simpl. lia.
Qed.

(** The command of [write_section_node], by cases on the verdict and
    the counter. *)
Lemma write_section_node_cases state r :
  write_section_node cfg state = Ok r ->
  ∃ text fb,
    section_writing_llm state = Ok text
    ∧ structured_reflection_llm
        (with_section state (set_content (s_section state) text)) = Ok fb
    ∧ r.1 = grade fb
    ∧ ((grade fb = pass ∨ max_search_depth cfg <= search_iterations state)
       ∧ r.2 = GotoEND [set_content (s_section state) text]
       ∨ (grade fb = fail ∧ search_iterations state < max_search_depth cfg)
         ∧ r.2 = GotoSearchWeb (follow_up_queries fb)
                               (set_content (s_section state) text)).
Proof.
  unfold write_section_node. intros Hr.
  destruct (section_writing_llm state) as [text|e] eqn:Hw; [| discriminate].
  destruct (structured_reflection_llm
              (with_section state (set_content (s_section state) text)))
    as [fb|e] eqn:Hfb; simpl in Hr; rewrite Hfb in Hr; [| discriminate].
  simpl in Hr. exists text, fb. split; [done |]. split; [done |].
  case_bool_decide as Hg; simpl in Hr.
  - injection Hr as <-. split; [done |]. left. split; [by left | done].
  - destruct (Z.leb_spec (max_search_depth cfg) (search_iterations state));
      injection Hr as <-; (split; [done |]).
    + left. split; [by right | done].
    + right. split; [| done]. split; [| done]. by destruct (grade fb).
Qed.

(** A node that returns preserves [reachable] and uses up [remaining]. *)
Lemma step_reachable m m' :
  0 < max_search_depth cfg ->
  reachable cfg m -> at_node m ≠ END -> step cfg m = Ok m' ->
  reachable cfg m' ∧ (remaining cfg m' < remaining cfg m)%nat.
Proof.
  intros Hpos (Hs & Hnode) Hrun. unfold step.
  destruct m as [node state l out]. simpl in *.
  destruct node; [| | | done].
  - (* generate_queries *)
    unfold generate_queries_node.
    destruct (query_writing_llm state) as [qs|e]; [| discriminate].
    simpl. intros [= <-]. destruct Hnode as [Hn ->].
    unfold reachable, remaining. simpl in *. split; [| lia].
    split; [done |]. rewrite Hn. split; [lia | done].
  - (* search_web *)
    unfold search_web_node.
    destruct (select_and_execute_search _ _) as [src|e]; [| discriminate].
    simpl. intros [= <-]. destruct Hnode as [Hn Hg].
    unfold reachable, remaining. simpl.
    rewrite searches_snoc_searched, gradings_snoc_searched. split; [| lia].
    split; [lia |]. split; lia.
  - (* write_section *)
    destruct (write_section_node cfg state) as [r|e] eqn:Hw; [| discriminate].
    simpl. destruct Hnode as [Hn Hg].
    destruct (write_section_node_cases _ _ Hw)
      as (text & fb & _ & _ & Hgrade & [[Hstop ->]|[[Hfail Hlt] ->]]);
      intros [= <-]; unfold reachable, remaining; simpl;
      rewrite searches_snoc_graded, gradings_snoc_graded.
    + split; [| lia]. split; [done |]. split; [lia |]. split; [lia |].
      exists r.1, l. split; [done |]. intros Hf.
      destruct Hstop as [Hp|Hge]; [congruence | lia].
    + split; [| lia]. split; [done |]. split; lia.
Qed.

(** Enough fuel gives a result, in a [reachable] machine. *)
Lemma run_terminates fuel m :
  0 < max_search_depth cfg ->
  reachable cfg m -> (remaining cfg m <= fuel)%nat ->
  ∃ m' err, run fuel cfg m = Some (m', err) ∧ reachable cfg m'
            ∧ (err = None -> at_node m' = END).
Proof.
  intros Hpos. revert m. induction fuel as [|fuel IH]; intros m Hm Hfuel.
  - destruct (at_node m) eqn:Hnode; unfold remaining in Hfuel;
      rewrite Hnode in Hfuel; try lia.
    + destruct Hm as [_ Hm]. rewrite Hnode in Hm. lia.
    + exists m, None. simpl. by rewrite Hnode.
  - destruct (decide (at_node m = END)) as [Hend|Hrun].
    + exists m, None. simpl. by rewrite Hend.
    + assert (run (S fuel) cfg m
              = match step cfg m with
                | Raise e => Some (m, Some e)
                | Ok m' => run fuel cfg m'
                end) as ->.
      { simpl. by destruct (at_node m). }
      destruct (step cfg m) as [m'|e] eqn:Hstep.
      * destruct (step_reachable _ _ Hpos Hm Hrun Hstep) as [Hm' Hlt].
        apply IH; [done | lia].
      * exists m, (Some e). split; [done |]. split; [done | discriminate].
Qed.

(** More fuel does not change a result. *)
Lemma run_more_fuel fuel fuel' m r :
  run fuel cfg m = Some r -> (fuel <= fuel')%nat -> run fuel' cfg m = Some r.
Proof.
  revert fuel' m. induction fuel as [|fuel IH]; intros fuel' m Hr Hle.
  - simpl in Hr. destruct fuel'; simpl; by destruct (at_node m).
  - destruct fuel' as [|fuel']; [lia |]. simpl in *.
    destruct (at_node m); try done;
      (destruct (step cfg m); [apply IH; [done | lia] | done]).
Qed.

End Loop.

Section LoopClaims.

Context `{Gateways} (cfg : Configurable).

Lemma start_reachable t s : reachable cfg (start (research_task t s)).
Proof. unfold reachable. simpl. by repeat split. Qed.

(** C2.  With a positive [max_search_depth], the loop started by the
    fan-out for a section terminates: every run with at least
    [1 + 2 * max_search_depth] units of fuel gives the same result,
    reaching [END] or stopping at a node that raised.  In the machine
    it stops in, the counter is at most [max_search_depth]; the number
    of completed search rounds equals the counter and the number of
    completed write-and-grade rounds is at most the counter; counting
    also a round that was entered and raised, neither number exceeds
    [max_search_depth]; and if the loop reached [END] after a last
    grade [fail], the counter equals [max_search_depth]. *)
Theorem C2_loop_terminates_within_depth t s :
  0 < max_search_depth cfg ->
  ∃ m err,
    (∀ fuel, (1 + 2 * Z.to_nat (max_search_depth cfg) <= fuel)%nat ->
       run fuel cfg (start (research_task t s)) = Some (m, err))
    ∧ search_iterations (st m) <= max_search_depth cfg
    ∧ Z.of_nat (searches (log m)) = search_iterations (st m)
    ∧ Z.of_nat (gradings (log m)) <= search_iterations (st m)
    ∧ Z.of_nat (searches (log m))
      + (if decide (at_node m = search_web) then 1 else 0)
      <= max_search_depth cfg
    ∧ Z.of_nat (gradings (log m))
      + (if decide (at_node m = write_section) then 1 else 0)
      <= max_search_depth cfg
    ∧ (err = None ->
         at_node m = END
         ∧ ∃ g l, log m = l ++ [Graded g]
                  ∧ (g = fail -> search_iterations (st m) = max_search_depth cfg)).
Proof.
  intros Hpos.
  destruct (run_terminates cfg (1 + 2 * Z.to_nat (max_search_depth cfg))
              (start (research_task t s)) Hpos (start_reachable t s))
    as (m & err & Hrun & Hm & Hend); [unfold remaining; simpl; lia |].
  exists m, err. split; [intros fuel Hle; by apply (run_more_fuel _ _ _ _ _ Hrun) |].
  destruct Hm as [Hs Hnode].
  assert (Hbounds :
            search_iterations (st m) <= max_search_depth cfg
            ∧ Z.of_nat (gradings (log m)) <= search_iterations (st m)
            ∧ search_iterations (st m)
              + (if decide (at_node m = search_web) then 1 else 0)
              <= max_search_depth cfg
            ∧ Z.of_nat (gradings (log m))
              + (if decide (at_node m = write_section) then 1 else 0)
              <= max_search_depth cfg).
  { destruct (at_node m); simpl; [| lia..].
    destruct Hnode as [-> ->]. unfold gradings. simpl. lia. }
  destruct Hbounds as (Hb1 & Hb2 & Hb3 & Hb4). rewrite Hs.
  do 5 (split; [done |]).
  intros ->. specialize (Hend eq_refl). split; [done |].
  rewrite Hend in Hnode. by destruct Hnode as (_ & _ & Hlast).
Qed.

(** C5.  Whatever the counter and the depth, when the grader returns
    [pass] the node returns the command to [END] carrying the section
    as just written; the run from that node stops at [END] after this
    one write-and-grade round, with the section emitted and no further
    event logged. *)
Theorem C5_pass_goes_to_end m text fb :
  at_node m = write_section ->
  section_writing_llm (st m) = Ok text ->
  structured_reflection_llm
    (with_section (st m) (set_content (s_section (st m)) text)) = Ok fb ->
  grade fb = pass ->
  write_section_node cfg (st m)
  = Ok (pass, GotoEND [set_content (s_section (st m)) text])
  ∧ ∀ fuel,
      run (S fuel) cfg m
      = Some ({| at_node := END; st := st m;
                 log := log m ++ [Graded pass];
                 emitted := emitted m ++ [set_content (s_section (st m)) text] |},
              None).
Proof.
  intros Hnode Hw Hfb Hg.
  assert (Hcmd : write_section_node cfg (st m)
                 = Ok (pass, GotoEND [set_content (s_section (st m)) text])).
  { unfold write_section_node. rewrite Hw. simpl. rewrite Hfb. simpl.
    rewrite Hg. by rewrite bool_decide_eq_true_2. }
  split; [done |]. intros fuel. simpl. rewrite Hnode.
  unfold step. rewrite Hnode, Hcmd. simpl. by destruct fuel.
Qed.

End LoopClaims.

(** ** The theorems on the example run *)

Ltac by_computation := apply (bool_decide_unpack _); vm_compute; exact I.

Lemma C1_batch_all_or_nothing_witness :
  ∃ e, ∀ i q, ["alpha"; "beta"] !! i = Some q ->
    @tavily_search_async Scenario.flaky ["alpha"; "beta"] !! i
    = Some {| query := q; error := Some (str_of_exn e); results := [];
              follow_up_questions := None; answer := None; images := None |}.
Proof.
  destruct (@C1_batch_all_or_nothing Scenario.flaky ["alpha"; "beta"])
    as (_ & Hraised & _).
  destruct Hraised as (e & _ & He).
  - exists 1%nat, "beta", (Exception "timed out"). split; reflexivity.
  - exists e. exact He.
Defined.

Lemma C2_loop_terminates_within_depth_witness :
  0 < max_search_depth (Scenario.depth 2)
  ∧ ∃ m err,
      @run Scenario.strict 5 (Scenario.depth 2)
        (start (research_task "X" Scenario.A)) = Some (m, err)
      ∧ search_iterations (st m) <= 2.
Proof.
  assert (Hpos : 0 < max_search_depth (Scenario.depth 2)) by (simpl; lia).
  split; [exact Hpos |].
  destruct (@C2_loop_terminates_within_depth Scenario.strict (Scenario.depth 2)
              "X" Scenario.A Hpos) as (m & err & Hrun & Hle & _).
  exists m, err. split; [apply Hrun; simpl; lia | exact Hle].
Defined.



Lemma C5_pass_goes_to_end_witness :
  search_iterations (st Scenario.first_write) = 1
  ∧ max_search_depth (Scenario.depth 3) = 3
  ∧ @write_section_node Scenario.lenient (Scenario.depth 3) (st Scenario.first_write)
    = Ok (pass, GotoEND [set_content Scenario.A "draft"]).
Proof.
  split; [reflexivity |]. split; [reflexivity |].
  exact (proj1 (@C5_pass_goes_to_end Scenario.lenient (Scenario.depth 3)
                  Scenario.first_write "draft" (mkFeedback pass [])
                  eq_refl eq_refl eq_refl eq_refl)).
Defined.

Lemma C6_compile_missing_section_witness :
  final_report_parts Scenario.planned [Scenario.C_done; Scenario.A_done] !! 1%nat
  = Some ("## " +:+ name Scenario.B +:+ newline +:+ newline +:+
          "[Content for section '" +:+ name Scenario.B +:+ "' not found/completed]").
Proof.
  destruct (C6_compile_missing_section Scenario.B_missing Scenario.planned
              [Scenario.C_done; Scenario.A_done] 1 Scenario.B
              eq_refl eq_refl eq_refl) as (_ & _ & Hpart & _).
  - by_computation.
  - exact Hpart.
Defined.

Lemma C7_approve_and_fan_out_witness :
  ∃ cmd, human_feedback_node Scenario.approved = Ok cmd
         ∧ update_feedback_on_report_plan cmd = None.
Proof.
  destruct (C7_approve_and_fan_out Scenario.approved "X" Scenario.planned
              eq_refl eq_refl) as (_ & cmd & Hcmd & Hupd & _).
  exists cmd. split; [exact Hcmd | exact Hupd].
Defined.

Lemma C8_each_url_listed_once_witness :
  NoDup (unique_results_by_url Scenario.overlapping).*1.
Proof. exact (proj1 (C8_each_url_listed_once Scenario.overlapping)). Defined.


Lemma C10_compile_none_content_witness :
  final_report_parts Scenario.planned
    ([Scenario.A_done] ++ Scenario.B :: [Scenario.C_done]) !! 1%nat
  = Some ("## " +:+ name Scenario.B +:+ newline +:+ newline +:+
          "[Content for section '" +:+ name Scenario.B +:+ "' is None]").
Proof.
  destruct (C10_compile_none_content Scenario.B_empty Scenario.planned
              [Scenario.A_done] Scenario.B [Scenario.C_done] 1 Scenario.B
              eq_refl eq_refl eq_refl eq_refl eq_refl) as (_ & Hpart & _).
  - by_computation.
  - exact Hpart.
Defined.

(** * Further properties of the sources *)

(** ** The search parameters *)
Section SearchParamsFacts.

Implicit Types (config : gmap string value) (k api : string) (v : value).

Lemma get_search_params_lookup api config k :
  get_search_params api (Some config) !! k
  = if decide (k ∈ default [] (SEARCH_API_PARAMS !! api)) then config !! k else None.
Proof.
  unfold get_search_params. case_bool_decide as Hempty.
  - subst config. rewrite !lookup_empty. by destruct (decide _).
  - rewrite map_lookup_filter. destruct (config !! k) as [v|]; simpl.
    + destruct (decide (k ∈ default [] (SEARCH_API_PARAMS !! api))).
      * by rewrite option_guard_True.
      * by rewrite option_guard_False.
    + by destruct (decide _).
Qed.

(** An entry of the filtered parameters is an entry of the given
    configuration under a key the search API accepts, and every such
    entry is kept with its value; without configuration, or for an API
    without declared parameters, nothing is passed. *)
Theorem get_search_params_entries api (search_api_config : option (gmap string value)) k v :
  get_search_params api search_api_config !! k = Some v
  <-> ∃ config accepted,
        search_api_config = Some config
        ∧ SEARCH_API_PARAMS !! api = Some accepted
        ∧ k ∈ accepted
        ∧ config !! k = Some v.
Proof.
  destruct search_api_config as [config|].
  - rewrite get_search_params_lookup. split.
    + destruct (SEARCH_API_PARAMS !! api) as [accepted|] eqn:Hapi;
        destruct (decide _) as [Hin|Hin]; try discriminate.
      * intros Hk. by exists config, accepted.
      * by apply elem_of_nil in Hin.
    + intros (config' & accepted & [= <-] & -> & Hin & Hk). simpl.
      by rewrite decide_True.
  - simpl. rewrite lookup_empty. split; [discriminate |].
    by intros (? & ? & [=] & _).
Qed.

(** Filtering what was already filtered changes nothing. *)
Theorem get_search_params_idempotent api (search_api_config : option (gmap string value)) :
  get_search_params api (Some (get_search_params api search_api_config))
  = get_search_params api search_api_config.
Proof.
  apply map_eq. intros k. rewrite get_search_params_lookup.
  destruct search_api_config as [config|].
  - rewrite get_search_params_lookup. by destruct (decide _).
  - simpl. rewrite lookup_empty. by destruct (decide _).
Qed.

(** Reading a configuration value never yields a member of an
    enumeration: a member is replaced by its string, which the search
    layer supports and has parameters declared for; strings,
    dictionaries and other values are returned as they are, so reading
    twice is reading once. *)
Theorem get_config_value_plain `{TavilyClient} (v : value) :
  get_config_value (get_config_value v) = get_config_value v
  ∧ (∀ a, get_config_value v ≠ VSearchAPI a)
  ∧ (∀ a, v = VSearchAPI a ->
       ∃ search_api,
         get_config_value v = VStr search_api
         ∧ is_Some (SEARCH_API_PARAMS !! search_api)
         ∧ ∀ query_list,
             select_and_execute_search search_api query_list
             = Ok (tavily_search query_list))
  ∧ ((∀ a, v ≠ VSearchAPI a) -> get_config_value v = v).
Proof.
  split; [by destruct v as [| | | |[]] |].
  split; [by destruct v as [| | | |[]] |]. split.
  - intros [] ->. exists "tavily". split; [reflexivity |].
    split; [by eexists | reflexivity].
  - intros Hplain. destruct v as [| | | |a]; try reflexivity.
    by destruct (Hplain a).
Qed.

End SearchParamsFacts.

(** ** The second fan-out *)
Section FinalFanOut.

Implicit Types (planned : list Section_) (state : ReportState).

Lemma existsb_not_research planned :
  existsb (fun s => negb (research s)) planned = true
  <-> filter (fun s => research s = false) planned ≠ [].
Proof.
  induction planned as [|s planned IH]; simpl; [done |].
  destruct (research s) eqn:Hr; simpl.
  - rewrite filter_cons_False by (rewrite Hr; discriminate). apply IH.
  - rewrite filter_cons_True by done. done.
Qed.

Lemma final_sends_section t ctx planned :
  final_section <$>
    map (fun s => {| final_node := "write_final_sections"; final_topic := t;
                     final_section := s; final_context := ctx |}) planned
  = planned.
Proof.
  induction planned as [|s planned IH]; [done |].
  cbn [map]. rewrite fmap_cons, IH. reflexivity.
Qed.

(** The route, when the three keys are present. *)
Lemma router_after_gather_sections_eq state planned t ctx :
  sections state = Some planned ->
  topic state = Some t ->
  report_sections_from_research state = Some ctx ->
  router_after_gather_sections state
  = Ok (match filter (fun s => research s = false) planned with
        | [] => RouteNode "compile_final_report"
        | kept =>
            RouteSends
              (map (fun s => {| final_node := "write_final_sections";
                                final_topic := t; final_section := s;
                                final_context := ctx |}) kept)
        end).
Proof.
  intros Hs Ht Hc. unfold router_after_gather_sections. rewrite Hs. simpl.
  destruct (existsb _ planned) eqn:He.
  - apply existsb_not_research in He.
    unfold initiate_final_section_writing_edge. rewrite Hs, Ht, Hc. simpl.
    by destruct (filter _ planned).
  - destruct (filter (fun s => research s = false) planned) eqn:Hf; [done |].
    assert (existsb (fun s => negb (research s)) planned = true) as Ht'
      by (apply existsb_not_research; by rewrite Hf).
    congruence.
Qed.

(** After the gather node the router dispatches one final writer per
    planned section without the research flag, in planned order, each
    with the topic and the research context of the state; when every
    planned section has the flag it goes to the compiler. *)
Theorem router_dispatches_final_writers state planned t ctx :
  sections state = Some planned ->
  topic state = Some t ->
  report_sections_from_research state = Some ctx ->
  ∃ route,
    router_after_gather_sections state = Ok route
    ∧ ((∀ s, s ∈ planned -> research s = true) ->
         route = RouteNode "compile_final_report")
    ∧ ((∃ s, s ∈ planned ∧ research s = false) ->
         ∃ tasks,
           route = RouteSends tasks
           ∧ tasks ≠ []
           ∧ final_section <$> tasks = filter (fun s => research s = false) planned
           ∧ Forall (fun task => final_node task = "write_final_sections"
                                 ∧ final_topic task = t
                                 ∧ final_context task = ctx) tasks).
Proof.
  intros Hs Ht Hc. eexists. split; [by apply router_after_gather_sections_eq |].
  set (kept := filter (fun s => research s = false) planned). split.
  - intros Hall. assert (kept = []) as ->; [| done].
    apply elem_of_nil_inv. intros s [Hr Hin]%list_elem_of_filter.
    rewrite (Hall s Hin) in Hr. discriminate.
  - intros (s & Hin & Hr).
    assert (Hne : kept ≠ []).
    { intros E. assert (s ∈ kept) as Hk by (by apply list_elem_of_filter).
      rewrite E in Hk. by apply elem_of_nil in Hk. }
    destruct kept as [|k kept'] eqn:Hk; [done |].
    eexists. split; [done |]. split; [done |].
    split; [apply final_sends_section |].
    apply Forall_forall. intros task (s' & -> & _)%list_elem_of_fmap. done.
Qed.

(** The router reads the topic and the research context only when some
    planned section lacks the research flag: a missing plan raises
    [KeyError] for ["sections"]; with an all-research plan the router
    returns although both keys are missing; otherwise a missing topic,
    then a missing context, raises [KeyError] for that key. *)
Theorem router_missing_keys state :
  (sections state = None ->
     router_after_gather_sections state = Raise (KeyError "sections"))
  ∧ (∀ planned, sections state = Some planned ->
       (∀ s, s ∈ planned -> research s = true) ->
       router_after_gather_sections state = Ok (RouteNode "compile_final_report"))
  ∧ (∀ planned, sections state = Some planned ->
       (∃ s, s ∈ planned ∧ research s = false) ->
       (topic state = None ->
          router_after_gather_sections state = Raise (KeyError "topic"))
       ∧ (is_Some (topic state) ->
          report_sections_from_research state = None ->
          router_after_gather_sections state
          = Raise (KeyError "report_sections_from_research"))).
Proof.
  unfold router_after_gather_sections. split; [by intros -> |]. split.
  - intros planned -> Hall. simpl.
    destruct (existsb _ planned) eqn:He; [| done].
    apply existsb_not_research in He. exfalso. apply He.
    apply elem_of_nil_inv. intros s [Hr Hin]%list_elem_of_filter.
    rewrite (Hall s Hin) in Hr. discriminate.
  - intros planned Hs (s & Hin & Hr). rewrite Hs. simpl.
    assert (Hne : filter (fun s => research s = false) planned ≠ []).
    { intros E. assert (s ∈ filter (fun s => research s = false) planned) as Hk
        by (by apply list_elem_of_filter).
      rewrite E in Hk. by apply elem_of_nil in Hk. }
    rewrite (proj2 (existsb_not_research planned) Hne).
    unfold initiate_final_section_writing_edge. rewrite Hs. simpl.
    destruct (filter _ planned) as [|k kept]; [done |]. split.
    + by intros ->.
    + intros [t ->] ->. done.
Qed.

Lemma filter_research_split planned :
  filter (fun s => research s = true) planned
  ++ filter (fun s => research s = false) planned ≡ₚ planned.
Proof.
  induction planned as [|s planned IH]; [done |].
  destruct (research s) eqn:Hr.
  - rewrite filter_cons_True by done.
    rewrite (filter_cons_False (fun s => research s = false))
      by (rewrite Hr; discriminate).
    simpl. by rewrite IH.
  - rewrite filter_cons_False by (rewrite Hr; discriminate).
    rewrite (filter_cons_True (fun s => research s = false)) by done.
    rewrite <- Permutation_middle. by rewrite IH.
Qed.

(** The two fan-outs together dispatch every planned section exactly
    once: the sections sent to the research loop followed by those sent
    to the final writer are a permutation of the plan. *)
Theorem fan_outs_partition_plan state state' planned cmd route :
  sections state = Some planned ->
  sections state' = Some planned ->
  human_feedback_node state = Ok cmd ->
  router_after_gather_sections state' = Ok route ->
  research_dispatch cmd ++ final_dispatch route ≡ₚ planned.
Proof.
  intros Hs Hs' Hcmd Hroute.
  assert (research_dispatch cmd = filter (fun s => research s = true) planned) as ->.
  { destruct (topic state) as [t|] eqn:Ht.
    - rewrite (human_feedback_node_eq _ _ _ Ht Hs) in Hcmd. cbv zeta in Hcmd.
      injection Hcmd as <-. unfold research_dispatch. simpl.
      destruct (filter _ planned) as [|k kept] eqn:Hf; [done |].
      rewrite fmap_cons. cbn [is_empty].
      apply (research_task_section t (k :: kept)).
    - unfold human_feedback_node in Hcmd. rewrite Ht in Hcmd. discriminate. }
  assert (final_dispatch route = filter (fun s => research s = false) planned) as ->.
  { unfold router_after_gather_sections in Hroute. rewrite Hs' in Hroute.
    simpl in Hroute. destruct (existsb _ planned) eqn:He.
    - unfold initiate_final_section_writing_edge in Hroute.
      rewrite Hs' in Hroute. simpl in Hroute.
      destruct (filter (fun s => research s = false) planned) as [|k kept] eqn:Hf.
      + by injection Hroute as <-.
      + destruct (topic state') as [t|]; [| discriminate].
        destruct (report_sections_from_research state') as [ctx|]; [| discriminate].
        simpl in Hroute. injection Hroute as <-. simpl.
        apply (final_sends_section t ctx (k :: kept)).
    - injection Hroute as <-. simpl.
      destruct (filter (fun s => research s = false) planned) eqn:Hf; [done |].
      assert (existsb (fun s => negb (research s)) planned = true) as Ht'
        by (apply existsb_not_research; by rewrite Hf).
      congruence. }
  apply filter_research_split.
Qed.

End FinalFanOut.

(** ** More on the section research loop *)
Section LoopEmission.

Context `{Gateways} (cfg : Configurable).

Lemma set_content_same s s0 text :
  name s = name s0 -> description s = description s0 -> research s = research s0 ->
  set_content s text = set_content s0 text.
Proof. unfold set_content. by intros -> -> ->. Qed.

Lemma step_carries s0 m m' :
  carries s0 m -> at_node m ≠ END -> step cfg m = Ok m' -> carries s0 m'.
Proof.
  intros (Hn & Hd & Hr & Hem) Hrun. unfold step.
  destruct m as [node state l out]. simpl in *.
  destruct node; [| | | done].
  - unfold generate_queries_node.
    destruct (query_writing_llm state); [| discriminate].
    simpl. intros [= <-]. by repeat split.
  - unfold search_web_node.
    destruct (select_and_execute_search _ _); [| discriminate].
    simpl. intros [= <-]. by repeat split.
  - destruct (write_section_node cfg state) as [r|e] eqn:Hw; [| discriminate].
    simpl.
    destruct (write_section_node_cases _ _ _ Hw)
      as (text & fb & _ & _ & _ & [[_ ->]|[_ ->]]); intros [= <-].
    + unfold carries. simpl. do 3 (split; [done |]).
      exists text. rewrite Hem. simpl. f_equal. by apply set_content_same.
    + unfold carries. simpl. by repeat split.
Qed.

Lemma run_carries s0 fuel m m' err :
  carries s0 m -> run fuel cfg m = Some (m', err) ->
  carries s0 m' ∧ (err = None <-> at_node m' = END).
Proof.
  revert m. induction fuel as [|fuel IH]; intros m Hm Hrun.
  - simpl in Hrun. destruct (at_node m) eqn:Hnode; try discriminate.
    injection Hrun as <- <-. by split.
  - destruct (decide (at_node m = END)) as [Hend|Hnot].
    + simpl in Hrun. rewrite Hend in Hrun. injection Hrun as <- <-. by split.
    + assert (run (S fuel) cfg m
              = match step cfg m with
                | Raise e => Some (m, Some e)
                | Ok m' => run fuel cfg m'
                end) as Heq.
      { simpl. by destruct (at_node m). }
      rewrite Heq in Hrun. destruct (step cfg m) as [m1|e] eqn:Hstep.
      * apply (IH m1); [by eapply step_carries | done].
      * injection Hrun as <- <-. split; [done |]. split; [discriminate | done].
Qed.

Lemma start_carries t s : carries s (start (research_task t s)).
Proof. unfold carries. simpl. by repeat split. Qed.

(** Whatever the collaborators reply, a loop that reaches [END] has
    emitted exactly one section: the one it was started for, with its
    name, description and flag unchanged and with content written; a
    loop that stops because a node raised has emitted nothing. *)
Theorem loop_emits_its_section t s fuel m err :
  run fuel cfg (start (research_task t s)) = Some (m, err) ->
  name (s_section (st m)) = name s
  ∧ (err = None -> ∃ text, emitted m = [set_content s text])
  ∧ (∀ e, err = Some e -> emitted m = []).
Proof.
  intros Hrun.
  destruct (run_carries s fuel _ _ _ (start_carries t s) Hrun)
    as [(Hn & _ & _ & Hem) Herr].
  split; [done |]. split.
  - intros Hnone. apply Herr in Hnone. by rewrite Hnone in Hem.
  - intros e ->. destruct (at_node m) eqn:Hnode; try done.
    assert (Some e = None) by (by apply Herr). discriminate.
Qed.

(** With [max_search_depth] at most 1, zero and negative values
    included, the loop stops after its first write-and-grade round
    whatever the grade: three nodes suffice, and a run that reaches
    [END] has performed exactly one search round and one grading, the
    counter being 1. *)
Theorem loop_single_round_when_depth_at_most_one t s :
  max_search_depth cfg <= 1 ->
  ∃ m err,
    (∀ fuel, (3 <= fuel)%nat ->
       run fuel cfg (start (research_task t s)) = Some (m, err))
    ∧ (err = None ->
         at_node m = END ∧ search_iterations (st m) = 1
         ∧ ∃ g, log m = [Searched; Graded g]).
Proof.
  intros Hdepth.
  assert (∃ m err, run 3 cfg (start (research_task t s)) = Some (m, err)
                   ∧ (err = None -> at_node m = END ∧ search_iterations (st m) = 1
                                    ∧ ∃ g, log m = [Searched; Graded g]))
    as (m & err & Hrun & Hend).
  { cbn [run start at_node]. unfold step at 1. cbn [at_node st log emitted].
    unfold generate_queries_node. cbn [send_arg research_task].
    destruct (query_writing_llm _) as [qs|e]; simpl;
      [| eexists _, _; split; [reflexivity | discriminate]].
    unfold step at 1. cbn [at_node st log emitted].
    destruct (search_web_node cfg _) as [st1|e] eqn:Hsearch; simpl;
      [| eexists _, _; split; [reflexivity | discriminate]].
    assert (search_iterations st1 = 1) as Hone.
    { unfold search_web_node in Hsearch.
      destruct (select_and_execute_search _ _); [| discriminate].
      simpl in Hsearch. by injection Hsearch as <-. }
    unfold step at 1. cbn [at_node st log emitted].
    destruct (write_section_node cfg st1) as [r|e] eqn:Hw; simpl;
      [| eexists _, _; split; [reflexivity | discriminate]].
    destruct (write_section_node_cases _ _ _ Hw)
      as (text & fb & _ & _ & _ & [[_ ->]|[[_ Hlt] ->]]); [| lia].
    simpl. eexists _, _. split; [reflexivity |]. intros _. simpl.
    split; [done |]. split; [done |]. by eexists. }
  exists m, err. split; [| done].
  intros fuel Hle. by apply (run_more_fuel cfg 3 fuel).
Qed.

End LoopEmission.

(** ** Termination for every depth *)
Section LoopAnyDepth.

Context `{Gateways} (cfg : Configurable).

Lemma step_budget m m' :
  at_node m ≠ END -> step cfg m = Ok m' ->
  (budget cfg m' < budget cfg m)%nat ∧ (counted cfg m -> counted cfg m').
Proof.
  intros Hrun. unfold step.
  destruct m as [node state l out]. simpl in *.
  destruct node; [| | | done].
  - unfold generate_queries_node.
    destruct (query_writing_llm state); [| discriminate].
    simpl. intros [= <-]. unfold budget, counted. simpl. split; [lia |].
    intros ->. lia.
  - unfold search_web_node.
    destruct (select_and_execute_search _ _); [| discriminate].
    simpl. intros [= <-]. unfold budget, counted. simpl. split; lia.
  - destruct (write_section_node cfg state) as [r|e] eqn:Hw; [| discriminate].
    simpl.
    destruct (write_section_node_cases _ _ _ Hw)
      as (text & fb & _ & _ & _ & [[_ ->]|[[_ Hlt] ->]]); intros [= <-];
      unfold budget, counted; simpl; split; lia.
Qed.

Lemma run_within_budget fuel m :
  (budget cfg m <= fuel)%nat -> counted cfg m ->
  ∃ m' err, run fuel cfg m = Some (m', err) ∧ counted cfg m'.
Proof.
  revert m. induction fuel as [|fuel IH]; intros m Hfuel Hm.
  - destruct (at_node m) eqn:Hnode; unfold budget in Hfuel;
      rewrite Hnode in Hfuel; try lia.
    exists m, None. simpl. by rewrite Hnode.
  - destruct (decide (at_node m = END)) as [Hend|Hrun].
    + exists m, None. simpl. by rewrite Hend.
    + assert (run (S fuel) cfg m
              = match step cfg m with
                | Raise e => Some (m, Some e)
                | Ok m' => run fuel cfg m'
                end) as ->.
      { simpl. by destruct (at_node m). }
      destruct (step cfg m) as [m1|e] eqn:Hstep.
      * destruct (step_budget _ _ Hrun Hstep) as [Hlt Hc].
        apply IH; [lia | by apply Hc].
      * by exists m, (Some e).
Qed.

(** For every value of [max_search_depth], positive or not, the loop
    started by the fan-out terminates within
    [3 + 2 * max_search_depth] nodes (3 when the depth is not positive),
    reaching [END] or stopping at a node that raised, with the counter
    at most the larger of 1 and the depth; a loop that reaches [END] has
    performed at least one search round. *)
Theorem loop_terminates_for_every_depth t s :
  ∃ m err,
    (∀ fuel, (3 + 2 * Z.to_nat (max_search_depth cfg) <= fuel)%nat ->
       run fuel cfg (start (research_task t s)) = Some (m, err))
    ∧ search_iterations (st m) <= Z.max 1 (max_search_depth cfg)
    ∧ (err = None -> at_node m = END ∧ 1 <= search_iterations (st m)).
Proof.
  destruct (run_within_budget (3 + 2 * Z.to_nat (max_search_depth cfg))
              (start (research_task t s)))
    as (m & err & Hrun & Hcount).
  { unfold budget. simpl. lia. }
  { reflexivity. }
  exists m, err. split; [intros fuel Hle; by apply (run_more_fuel cfg _ fuel _ _ Hrun) |].
  split.
  - unfold counted in Hcount. destruct (at_node m); lia.
  - intros ->.
    destruct (run_carries cfg s _ _ _ _ (start_carries t s) Hrun) as [_ Hend].
    assert (at_node m = END) as Hnode by (by apply Hend).
    split; [done |].
    unfold counted in Hcount. rewrite Hnode in Hcount. lia.
Qed.

End LoopAnyDepth.

(** ** More on the compiler *)
Section CompilerEdges.

Implicit Types (planned completed : list Section_) (p s : Section_).

(** When a name occurs more than once among the completed sections, the
    part of a planned section of that name takes the content of the
    last occurrence. *)
Theorem compile_last_entry_wins planned c1 s c2 i p :
  planned !! i = Some p ->
  name s = name p ->
  name p ∉ name <$> c2 ->
  final_report_parts planned (c1 ++ s :: c2) !! i
  = Some (header p +:+ rendered (name p) (content s)).
Proof.
  intros Hi Hn Hlast. rewrite (final_report_parts_lookup _ _ _ _ Hi).
  rewrite <- Hn in Hlast.
  pose proof (completed_content_map_last c1 s c2 Hlast) as Hl.
  rewrite Hn in Hl. by rewrite (content_str_present _ p s Hl).
Qed.

Lemma completed_content_map_skip c1 extra c2 n :
  n ∉ name <$> extra ->
  completed_content_map (c1 ++ extra ++ c2) !! n
  = completed_content_map (c1 ++ c2) !! n.
Proof.
  revert c1. induction extra as [|x extra IH]; intros c1 Hn; [done |].
  rewrite fmap_cons in Hn. apply not_elem_of_cons in Hn as [Hx Hn].
  change (c1 ++ (x :: extra) ++ c2) with (c1 ++ x :: (extra ++ c2)).
  rewrite completed_content_map_other by done. by apply IH.
Qed.

(** Completed sections whose names are not in the plan leave the report
    unchanged, wherever they stand in the collection. *)
Theorem compile_ignores_unplanned planned c1 extra c2 :
  (∀ p, p ∈ planned -> name p ∉ name <$> extra) ->
  final_report_parts planned (c1 ++ extra ++ c2)
  = final_report_parts planned (c1 ++ c2).
Proof.
  intros Hout. rewrite !final_report_parts_map.
  apply list_fmap_ext. intros i p Hi. f_equal. unfold content_str.
  rewrite completed_content_map_skip; [done |].
  apply Hout. apply list_elem_of_lookup. eauto.
Qed.

(** A state without the plan makes the compiler raise [KeyError] for
    ["sections"]; a state without completed sections is compiled like
    one with none: every planned section gets its header and the text
    for a missing section. *)
Theorem compile_missing_keys state :
  (sections state = None ->
     compile_final_report_node state = Raise (KeyError "sections"))
  ∧ (∀ planned, sections state = Some planned ->
       completed_sections state = None ->
       compile_final_report_node state
       = Ok (join (nl +:+ nl)
               ((fun p => header p +:+ not_found_text (name p)) <$> planned))).
Proof.
  split.
  - unfold compile_final_report_node. by intros ->.
  - intros planned Hs Hc. rewrite (compile_final_report_node_ok _ _ Hs), Hc.
    simpl. rewrite final_report_parts_map. reflexivity.
Qed.

End CompilerEdges.

(** ** More on the configuration resolver *)
Section ResolverEdges.

Context `{Pydantic}.

Lemma final_values_declared env config k v :
  final_values_for_instantiation env config !! k = Some v -> k ∈ model_fields.
Proof.
  unfold final_values_for_instantiation. rewrite foldl_resolve_field_lookup.
  destruct (decide (k ∈ model_fields)); [done |]. by rewrite lookup_empty.
Qed.

Lemma init_fields_names kwargs fds inst :
  init_fields kwargs fds = Ok inst -> inst.*1 = fds.*1.
Proof.
  revert inst. induction fds as [|fd fds IH]; intros inst; simpl.
  - by intros [= <-].
  - destruct (init_field kwargs fd) as [x|] eqn:Hx; [| discriminate]. simpl.
    destruct (init_fields kwargs fds) as [xs|]; [| discriminate]. simpl.
    intros [= <-]. rewrite !fmap_cons, (IH xs eq_refl). f_equal.
    unfold init_field in Hx. destruct (kwargs !! fd.1) as [v|].
    + destruct (validate fd.1 v); [| discriminate]. by injection Hx as <-.
    + by injection Hx as <-.
Qed.

(** Keys of the configurable mapping and variables of the environment
    that name no declared field never reach the model: only declared
    fields are passed, and an instance holds exactly the declared
    fields, in declaration order. *)
Theorem resolver_passes_declared_fields_only env config :
  (∀ k v, final_values_for_instantiation env config !! k = Some v ->
          k ∈ model_fields)
  ∧ (∀ inst, from_runnable_config env config = Ok inst ->
             inst.*1 = model_fields).
Proof.
  split; [apply final_values_declared |].
  intros inst Hinst. by apply init_fields_names in Hinst.
Qed.

Lemma init_fields_empty fds : init_fields ∅ fds = Ok fds.
Proof.
  induction fds as [|fd fds IH]; [done |].
  simpl. unfold init_field. rewrite lookup_empty. simpl. by rewrite IH.
Qed.

(** When no declared field is set in the environment or present in the
    configurable mapping, the resolver returns the declared defaults
    without validating anything. *)
Theorem resolver_defaults env config :
  (∀ f, f ∈ model_fields ->
        env !! upper f = None ∧ configurable_of config !! f = None) ->
  from_runnable_config env config = Ok field_defaults.
Proof.
  intros Hunset. unfold from_runnable_config, cls.
  assert (final_values_for_instantiation env config = ∅) as ->;
    [| apply init_fields_empty].
  apply map_eq. intros k. rewrite lookup_empty.
  unfold final_values_for_instantiation. rewrite foldl_resolve_field_lookup.
  destruct (decide (k ∈ model_fields)) as [Hk|Hk]; [| apply lookup_empty].
  destruct (Hunset k Hk) as [He Hc]. unfold layered. by rewrite He, Hc.
Qed.

Lemma init_fields_ok kwargs fds :
  is_ok (init_fields kwargs fds) = true
  <-> ∀ fd v, fd ∈ fds -> kwargs !! fd.1 = Some v -> is_ok (validate fd.1 v) = true.
Proof.
  induction fds as [|fd fds IH]; simpl.
  - split; [by intros _ ? ? []%elem_of_nil | done].
  - unfold init_field at 1. split.
    + intros Hok fd' v [->|Hin]%elem_of_cons Hv.
      * rewrite Hv in Hok. by destruct (validate fd.1 v).
      * apply IH; [| done..].
        destruct (kwargs !! fd.1) as [w|]; simpl in Hok.
        -- destruct (validate fd.1 w); [| done]. simpl in Hok.
           by destruct (init_fields kwargs fds).
        -- by destruct (init_fields kwargs fds).
    + intros Hall.
      assert (is_ok (init_fields kwargs fds) = true) as Hrest.
      { apply IH. intros fd' v Hin. apply Hall. by right. }
      destruct (init_fields kwargs fds) as [xs|]; [| done].
      destruct (kwargs !! fd.1) as [w|] eqn:Hw; simpl; [| done].
      specialize (Hall fd w (ltac:(by left)) Hw).
      by destruct (validate fd.1 w).
Qed.

Lemma init_fields_raise kwargs fds e :
  init_fields kwargs fds = Raise e ->
  ∃ fd v, fd ∈ fds ∧ kwargs !! fd.1 = Some v ∧ validate fd.1 v = Raise e.
Proof.
  induction fds as [|fd fds IH]; simpl; [discriminate |].
  unfold init_field at 1.
  destruct (kwargs !! fd.1) as [w|] eqn:Hw; simpl.
  - destruct (validate fd.1 w) as [w'|e'] eqn:Hv; simpl.
    + destruct (init_fields kwargs fds) as [xs|e'']; simpl; [discriminate |].
      intros [= <-]. destruct (IH eq_refl) as (fd' & v & Hin & Hk & Hr).
      exists fd', v. split; [by right | done].
    + intros [= <-]. exists fd, w. split; [by left | done].
  - destruct (init_fields kwargs fds) as [xs|e'']; simpl; [discriminate |].
    intros [= <-]. destruct (IH eq_refl) as (fd' & v & Hin & Hk & Hr).
    exists fd', v. split; [by right | done].
Qed.

(** The resolver returns an instance exactly when every value it passes
    is accepted by the validation; when it raises, the exception is the
    one the validation raised for a value passed for a declared
    field. *)
Theorem resolver_raises_only_on_validation env config :
  (is_ok (from_runnable_config env config) = true
   <-> ∀ f v, final_values_for_instantiation env config !! f = Some v ->
              is_ok (validate f v) = true)
  ∧ (∀ e, from_runnable_config env config = Raise e ->
       ∃ f v, f ∈ model_fields
              ∧ final_values_for_instantiation env config !! f = Some v
              ∧ validate f v = Raise e).
Proof.
  unfold from_runnable_config, cls. split.
  - rewrite init_fields_ok. split.
    + intros Hall f v Hf.
      pose proof (final_values_declared _ _ _ _ Hf) as Hdecl.
      apply list_elem_of_fmap in Hdecl as (fd & -> & Hin). by apply (Hall fd).
    + intros Hall fd v _ Hv. by apply Hall.
  - intros e (fd & v & Hin & Hk & Hr)%init_fields_raise.
    exists fd.1, v. split; [| done].
    apply list_elem_of_fmap. by exists fd.
Qed.

End ResolverEdges.

(** ** More on the search tool *)
Section SearchText.

Implicit Types (acc : string * list (string * Result)) (r : Result) (u : string).

Lemma scan_error_objects acc e (qs : list string) :
  (foldl scan_response acc (map (error_object e) qs)).2 = acc.2.
Proof.
  revert acc. induction qs as [|q qs IH]; intros acc; [done |].
  cbn [map foldl]. rewrite IH, scan_response_sources.
  by destruct (truthy _).
Qed.

Lemma any_answer_error_objects e (qs : list string) :
  any_answer (map (error_object e) qs) = false.
Proof.
  unfold any_answer. induction qs as [|q qs IH]; [done |].
  cbn [map]. destruct (decide (truthy (error (error_object e q)) = false)).
  - rewrite filter_cons_True by done. simpl. apply IH.
  - rewrite filter_cons_False by done. apply IH.
Qed.

Lemma format_error_objects e (qs : list string) :
  format_search_responses (map (error_object e) qs) = no_results_message.
Proof.
  unfold format_search_responses.
  pose proof (scan_error_objects ("Search results:" +:+ nl +:+ nl, []) e qs) as Hs.
  fold (scan_responses (map (error_object e) qs)) in Hs.
  destruct (scan_responses _) as [out unique]. simpl in Hs. subst unique.
  by rewrite any_answer_error_objects.
Qed.

(** Given a client, when a call of the batch raises, the body of the
    search tool returns the fixed text for no results, whatever the other
    calls returned: the error lines written for the queries are not part
    of it. *)
Theorem search_text_of_failed_batch `{TavilyClient} (queries : list string) :
  (∃ i q e, queries !! i = Some q ∧ outcome (client_search i q) = Raise e) ->
  tavily_search queries
  = "No valid search results or answers found. Please try different search queries.".
Proof.
  intros (i & q & e & Hq & He).
  unfold tavily_search, tavily_search_async, gather.
  destruct (first_raised (imap client_search queries)) as [[tm e']|] eqn:Hfr.
  - apply format_error_objects.
  - apply first_raised_None in Hfr. rewrite search_tasks_ok in Hfr.
    specialize (Hfr i q Hq). rewrite He in Hfr. discriminate.
Qed.

(** *** The shape of the text *)

(** The search tool returns the fixed text for no results exactly when
    no response without error brought a result with a URL or an answer;
    in every other case its text begins with [Search results:]. *)
Theorem search_text_shape (search_responses : list Response) :
  (unique_results_by_url search_responses = []
   ∧ any_answer search_responses = false ->
     format_search_responses search_responses = no_results_message)
  ∧ (unique_results_by_url search_responses ≠ []
     ∨ any_answer search_responses = true ->
     ∃ rest, format_search_responses search_responses
             = "Search results:" +:+ rest).
Proof.
  unfold unique_results_by_url, format_search_responses.
  destruct (foldl_scan_response_prefix ("Search results:" +:+ nl +:+ nl, [])
              search_responses "Search results:" (nl +:+ nl) eq_refl)
    as [rest Hpre].
  fold (scan_responses search_responses) in Hpre.
  destruct (scan_responses search_responses) as [out unique]. simpl in *.
  split.
  - intros [-> ->]. reflexivity.
  - intros Hsome.
    assert (is_empty unique && negb (any_answer search_responses) = false) as ->.
    { destruct Hsome as [Hne| ->]; [by destruct unique | by rewrite andb_false_r]. }
    rewrite format_sources_blocks, Hpre, app_assoc_s.
    change ("Search results:" +:+ ?x) with ("Search results" +:+ String ":" x).
    unfold strip.
    change ("Search results" +:+ String ":" ?x)
      with (String "S" ("earch results" +:+ String ":" x)) at 1.
    rewrite lstrip_keeps by reflexivity.
    change (String "S" ("earch results" +:+ String ":" ?x))
      with ("Search results" +:+ String ":" x).
    rewrite rstrip_keeps by reflexivity. by eexists.
Qed.

End SearchText.

(** ** Which result is kept for a URL *)
Section FirstHit.

Implicit Types (unique : list (string * Result)) (r : Result) (u : string).

Lemma add_result_keeps unique r entry :
  entry ∈ unique -> entry ∈ add_result unique r.
Proof.
  intros Hin. destruct (add_result_cases unique r) as [[-> _]|(u & _ & _ & _ & ->)];
    [done |]. apply elem_of_app. by left.
Qed.

Lemma foldl_add_result_keeps unique (rs : list Result) entry :
  entry ∈ unique -> entry ∈ foldl add_result unique rs.
Proof.
  revert unique. induction rs as [|r rs IH]; intros unique Hin; simpl; [done |].
  by apply IH, add_result_keeps.
Qed.

Lemma foldl_scan_response_keeps acc (responses : list Response) entry :
  entry ∈ acc.2 -> entry ∈ (foldl scan_response acc responses).2.
Proof.
  revert acc. induction responses as [|response responses IH]; intros acc Hin;
    simpl; [done |].
  apply IH. rewrite scan_response_sources.
  destruct (truthy (error response)); [done |]. by apply foldl_add_result_keeps.
Qed.

Lemma add_result_fresh unique r u :
  url r = Some u -> u ≠ "" -> u ∉ unique.*1 -> (u, r) ∈ add_result unique r.
Proof.
  intros Hu Hne Hout.
  destruct (add_result_cases unique r) as [[_ Hin]|(u' & Hu' & _ & _ & ->)].
  - by specialize (Hin u Hu Hne).
  - assert (u' = u) as -> by congruence. apply elem_of_app. right. by left.
Qed.

(** Among the results of the responses without error, the first one
    that carries a given non-empty URL is the one listed for it: it is
    the entry of that URL, and no later result replaces it. *)
Theorem first_result_of_url_is_listed
    (before after : list Response) (response : Response)
    (earlier later : list Result) (r : Result) (u : string) :
  truthy (error response) = false ->
  results response = earlier ++ r :: later ->
  url r = Some u ->
  u ≠ "" ->
  (∀ resp r', resp ∈ before -> truthy (error resp) = false ->
              r' ∈ results resp -> url r' ≠ Some u) ->
  (∀ r', r' ∈ earlier -> url r' ≠ Some u) ->
  (u, r) ∈ unique_results_by_url (before ++ response :: after)
  ∧ ∀ r', (u, r') ∈ unique_results_by_url (before ++ response :: after) -> r' = r.
Proof.
  intros Husable Hres Hu Hne Hbefore Hearlier.
  assert (Hin : (u, r) ∈ unique_results_by_url (before ++ response :: after)).
  { unfold unique_results_by_url, scan_responses.
    rewrite foldl_app. cbn [foldl].
    set (acc0 := foldl scan_response ("Search results:" +:+ nl +:+ nl, []) before).
    apply foldl_scan_response_keeps. rewrite scan_response_sources, Husable, Hres.
    rewrite foldl_app. cbn [foldl]. apply foldl_add_result_keeps, add_result_fresh;
      [done.. |].
    rewrite foldl_add_result_keys. intros [Hacc|(_ & r' & Hr' & Hurl)].
    - unfold acc0 in Hacc. apply foldl_scan_response_keys in Hacc
        as [[]%elem_of_nil|(_ & resp & r' & Hresp & Hus & Hr' & Hurl)].
      by apply (Hbefore resp r').
    - by apply (Hearlier r'). }
  split; [done |]. intros r' Hin'.
  assert (Hnd : NoDup (unique_results_by_url (before ++ response :: after)).*1).
  { unfold unique_results_by_url, scan_responses.
    apply foldl_scan_response_NoDup. simpl. constructor. }
  apply list_elem_of_lookup in Hin as [i Hi]. apply list_elem_of_lookup in Hin' as [j Hj].
  assert (i = j) as ->.
  { apply (NoDup_lookup _ i j u Hnd); rewrite list_lookup_fmap.
    - by rewrite Hi. 
    - by rewrite Hj. }
  congruence.
Qed.

End FirstHit.

(** ** The preview of the raw content and the section text *)
Section Texts.

Lemma length_app_s (a b : string) :
  String.length (a +:+ b) = (String.length a + String.length b)%nat.
Proof.
  induction a as [|c a IH]; [done |]. rewrite app_cons_s. simpl. by rewrite IH.
Qed.

Lemma substring_0_length (n : nat) (s : string) :
  String.length (String.substring 0 n s) = (n `min` String.length s)%nat.
Proof.
  revert s. induction n as [|n IH]; intros [|c s]; simpl; try done.
  by rewrite IH.
Qed.

Lemma substring_0_all (n : nat) (s : string) :
  (String.length s <= n)%nat -> String.substring 0 n s = s.
Proof.
  revert s. induction n as [|n IH]; intros [|c s]; simpl; try done; try lia.
  intros Hle. rewrite IH; [done | lia].
Qed.

(** The preview of a raw content never exceeds the limit of 10000
    characters by more than the three dots: a content within the limit
    is shown whole, a longer one is cut to exactly 10003 characters. *)
Theorem raw_content_preview_bounded (raw : string) :
  (String.length (raw_content_preview raw) <= 10000 + 3)%nat
  ∧ ((String.length raw <= 10000)%nat -> raw_content_preview raw = raw)
  ∧ ((10000 < String.length raw)%nat ->
       String.length (raw_content_preview raw) = (10000 + 3)%nat).
Proof.
  unfold raw_content_preview. generalize 10000%nat as limit. intros limit.
  destruct (Nat.ltb_spec limit (String.length raw)) as [Hlong|Hshort].
  - rewrite length_app_s, substring_0_length. simpl. split; [lia |].
    split; lia.
  - rewrite app_empty_r, substring_0_length, substring_0_all by done.
    split; [lia |]. split; [done | lia].
Qed.

(** Formatting a collection extended by further sections appends their
    blocks to the text of the collection, numbered on from its
    length. *)
Theorem format_sections_app (a b : list Section_) :
  format_sections (a ++ b)
  = format_sections a +:+ format_sections_loop (S (length a)) "" b.
Proof.
  unfold format_sections. rewrite !format_sections_loop_blocks, !app_empty_l.
  rewrite imap_app. generalize (imap (fun k s => section_block (1 + k) s) a).
  intros blocks.
  replace (imap (fun k s => section_block (1 + (length a + k)) s) b)
    with (imap (fun k s => section_block (S (length a) + k) s) b)
    by (apply imap_ext; intros; simpl; do 2 f_equal).
  generalize (imap (fun k s => section_block (S (length a) + k) s) b).
  intros more. induction blocks as [|x blocks IH]; [done |].
  rewrite <- app_comm_cons, !join_empty_cons, IH. by rewrite app_assoc_s.
Qed.

End Texts.

(** ** The further properties on the example run *)

Lemma router_dispatches_final_writers_witness :
  ∃ tasks, router_after_gather_sections Continued.gathered = Ok (RouteSends tasks)
           ∧ final_section <$> tasks = [Scenario.C].
Proof.
  destruct (router_dispatches_final_writers Continued.gathered Scenario.planned
              "X" (format_sections [Scenario.B_done; Scenario.A_done])
              eq_refl eq_refl eq_refl) as (route & Hroute & _ & Hsome).
  destruct Hsome as (tasks & -> & _ & Hsections & _).
  - exists Scenario.C. split; [by_computation | reflexivity].
  - exists tasks. split; [exact Hroute | exact Hsections].
Defined.

Lemma fan_outs_partition_plan_witness :
  ∃ cmd route,
    human_feedback_node Scenario.approved = Ok cmd
    ∧ router_after_gather_sections Continued.gathered = Ok route
    ∧ research_dispatch cmd ++ final_dispatch route ≡ₚ Scenario.planned.
Proof.
  eexists _, _. split; [reflexivity |]. split; [reflexivity |].
  exact (fan_outs_partition_plan Scenario.approved Continued.gathered
           Scenario.planned _ _ eq_refl eq_refl eq_refl eq_refl).
Defined.

Lemma loop_emits_its_section_witness :
  ∃ m, @run Scenario.strict 5 (Scenario.depth 2)
         (start (research_task "X" Scenario.A)) = Some (m, None)
       ∧ ∃ text, emitted m = [set_content Scenario.A text].
Proof.
  assert (∃ m, @run Scenario.strict 5 (Scenario.depth 2)
                 (start (research_task "X" Scenario.A)) = Some (m, None))
    as [m Hrun] by (vm_compute; eexists; reflexivity).
  exists m. split; [exact Hrun |].
  exact (proj1 (proj2 (@loop_emits_its_section Scenario.strict (Scenario.depth 2)
                         "X" Scenario.A 5 m None Hrun)) eq_refl).
Defined.

Lemma loop_single_round_when_depth_at_most_one_witness :
  max_search_depth (Scenario.depth 0) <= 1
  ∧ ∃ m err, @run Scenario.strict 3 (Scenario.depth 0)
               (start (research_task "X" Scenario.A)) = Some (m, err).
Proof.
  assert (Hdepth : max_search_depth (Scenario.depth 0) <= 1) by (simpl; lia).
  split; [exact Hdepth |].
  destruct (@loop_single_round_when_depth_at_most_one Scenario.strict
              (Scenario.depth 0) "X" Scenario.A Hdepth) as (m & err & Hrun & _).
  exists m, err. apply Hrun. lia.
Defined.

Lemma compile_last_entry_wins_witness :
  final_report_parts Scenario.planned
    ([Scenario.B_done; Scenario.A_done] ++ Continued.B_again :: [Scenario.C_done])
    !! 1%nat
  = Some (header Scenario.B +:+ "second text of B").
Proof.
  apply (compile_last_entry_wins Scenario.planned
           [Scenario.B_done; Scenario.A_done] Continued.B_again [Scenario.C_done]
           1 Scenario.B eq_refl eq_refl).
  by_computation.
Defined.

Lemma compile_ignores_unplanned_witness :
  final_report_parts Scenario.planned
    ([Scenario.B_done; Scenario.C_done] ++ [Continued.stray] ++ [Scenario.A_done])
  = final_report_parts Scenario.planned
      ([Scenario.B_done; Scenario.C_done] ++ [Scenario.A_done]).
Proof.
  apply compile_ignores_unplanned. apply Forall_forall. by_computation.
Defined.

Lemma resolver_defaults_witness :
  @from_runnable_config Scenario.accept_all ∅ None = Ok field_defaults.
Proof.
  apply resolver_defaults. intros f _. split; [apply lookup_empty | reflexivity].
Defined.

Lemma search_text_of_failed_batch_witness :
  @tavily_search Scenario.flaky ["alpha"; "beta"] = no_results_message.
Proof.
  apply (@search_text_of_failed_batch Scenario.flaky ["alpha"; "beta"]).
  exists 1%nat, "beta", (Exception "timed out"). split; reflexivity.
Defined.

Lemma first_result_of_url_is_listed_witness :
  ("http://c.example", Scenario.page "http://c.example")
  ∈ unique_results_by_url Scenario.overlapping.
Proof.
  apply (first_result_of_url_is_listed
           [Scenario.reply "alpha" [Scenario.page "http://a.example";
                                    Scenario.page "http://b.example"]]
           []
           (Scenario.reply "beta" [Scenario.page "http://b.example";
                                   Scenario.page "http://c.example"])
           [Scenario.page "http://b.example"] []
           (Scenario.page "http://c.example") "http://c.example"
           eq_refl eq_refl eq_refl).
  - discriminate.
  - intros resp r' ->%list_elem_of_singleton _ Hr'. simpl in Hr'.
    apply elem_of_cons in Hr' as [->|Hr']; [discriminate |].
    apply list_elem_of_singleton in Hr' as ->. discriminate.
  - intros r' ->%list_elem_of_singleton. discriminate.
Defined.
